(** * luogu-socket: channel multiplexing over one reconnecting WebSocket

    A shallow embedding of [src/luogu-socket.ts].  The file has two classes,
    [Channel] and [Socket], that run on Node's event loop: every piece of
    code is a reaction to a call of the consumer, to an event of the [ws]
    transport or to a timer.  The embedding keeps

    - the objects of the program in a store ([World]): the one [Socket], the
      [Channel] objects it created (addressed by their position in the
      store, which is their identity), the [WebSocket] objects it opened and
      Node's table of timers;
    - every call that leaves the file (to [ws], to [EventEmitter.emit], to
      [setTimeout] and [clearTimeout]) in a log, in program order;
    - exceptions as an abrupt completion next to the store, since a JavaScript
      [throw] does not undo the writes made before it.

    The [ws] library, Node's timers and the listeners of the consumer are
    not part of the file: a call into them is logged, and the event loop
    below decides when a transport or a timer calls back.  What a call into
    [ws] does besides is described with the transport.  The [debug] lines
    are left out.  Times are in milliseconds; one time unit of
    the specification is 1000. *)

From Stdlib Require Import Ascii String ZArith Lia.
From stdpp Require Import base numbers option list strings.

(** ** JSON text of a string, and the registry key *)

(** Strings are sequences of code units below 256, where no surrogate
    arises; [QuoteJSONString] of ECMA-262 then escapes the quote, the
    backslash and the control characters and copies every other unit. *)

Definition dquote : ascii := "034"%char.
Definition backslash : ascii := "092"%char.

Definition hexDigit (n : N) : ascii :=
  if (n <? 10)%N then ascii_of_N (48 + n) else ascii_of_N (87 + n).

Definition UnicodeEscape (c : ascii) : string :=
  let n := N_of_ascii c in
  String backslash (String "u" (String "0" (String "0"
    (String (hexDigit (n / 16)) (String (hexDigit (n mod 16)) EmptyString))))).

Definition QuoteJSONChar (c : ascii) : string :=
  let n := N_of_ascii c in
  if (n =? 8)%N then String backslash "b"
  else if (n =? 9)%N then String backslash "t"
  else if (n =? 10)%N then String backslash "n"
  else if (n =? 12)%N then String backslash "f"
  else if (n =? 13)%N then String backslash "r"
  else if (n =? 34)%N then String backslash (String dquote EmptyString)
  else if (n =? 92)%N then String backslash (String backslash EmptyString)
  else if (n <? 32)%N then UnicodeEscape c
  else String c EmptyString.

Fixpoint QuoteJSONBody (s : string) : string :=
  match s with
  | EmptyString => EmptyString
  | String c r => QuoteJSONChar c +:+ QuoteJSONBody r
  end.

Definition QuoteJSONString (s : string) : string :=
  String dquote (QuoteJSONBody s +:+ String dquote EmptyString).

(** [JSON.stringify([a, b])] for two strings: no white space is inserted. *)
Definition JSON_stringify_pair (a b : string) : string :=
  "[" +:+ QuoteJSONString a +:+ "," +:+ QuoteJSONString b +:+ "]".

(** [function channelKey(channel, param)] *)
Definition channelKey (channel param : string) : string :=
  JSON_stringify_pair channel param.

(** Reading one quoted character back; used only to show that the key
    determines the pair. *)
Definition unhex (c : ascii) : option N :=
  let n := N_of_ascii c in
  if (48 <=? n)%N && (n <? 58)%N then Some (n - 48)%N
  else if (97 <=? n)%N && (n <? 103)%N then Some (n - 87)%N
  else None.

Definition unquoteChar (s : string) : option (ascii * string) :=
  match s with
  | EmptyString => None
  | String c r =>
    if Ascii.eqb c dquote then None
    else if Ascii.eqb c backslash then
      match r with
      | String e r' =>
        if Ascii.eqb e "b" then Some ("008"%char, r')
        else if Ascii.eqb e "t" then Some ("009"%char, r')
        else if Ascii.eqb e "n" then Some ("010"%char, r')
        else if Ascii.eqb e "f" then Some ("012"%char, r')
        else if Ascii.eqb e "r" then Some ("013"%char, r')
        else if Ascii.eqb e dquote then Some (dquote, r')
        else if Ascii.eqb e backslash then Some (backslash, r')
        else if Ascii.eqb e "u" then
          match r' with
          | String "0" (String "0" (String h (String l r''))) =>
            match unhex h, unhex l with
            | Some a, Some b => Some (ascii_of_N (16 * a + b), r'')
            | _, _ => None
            end
          | _ => None
          end
        else None
      | EmptyString => None
      end
    else Some (c, r)
  end.

(** ** A JavaScript [Map] with string keys

    Entries are kept in insertion order, which is the order [values()]
    visits them in; [set] on a present key replaces the value in place. *)

Section JsMap.
Context {V : Type}.

Definition JsMap := list (string * V).

Fixpoint Map_get (k : string) (m : JsMap) : option V :=
  match m with
  | [] => None
  | (k', v) :: m' => if String.eqb k k' then Some v else Map_get k m'
  end.

Fixpoint Map_set (k : string) (v : V) (m : JsMap) : JsMap :=
  match m with
  | [] => [(k, v)]
  | (k', v') :: m' =>
    if String.eqb k k' then (k', v) :: m' else (k', v') :: Map_set k v m'
  end.

Fixpoint Map_delete (k : string) (m : JsMap) : JsMap :=
  match m with
  | [] => []
  | (k', v) :: m' =>
    if String.eqb k k' then Map_delete k m' else (k', v) :: Map_delete k m'
  end.

Definition Map_values (m : JsMap) : list V := map snd m.
End JsMap.
Arguments JsMap : clear implicits.

(** ** Wire protocol *)

(** A value of TypeScript type [unknown], as the JSON value it is on the
    wire. *)
#[warnings="-register-all"] Inductive Json :=
| JNull
| JBool (b : bool)
| JNumber (n : Z)
| JString (s : string)
| JArray (items : list Json)
| JObject (fields : list (string * Json)).

Inductive IncomingMessage :=
| IncomingDataMessage (_channel _channel_param : string)
    (fields : list (string * Json))
| JoinResultMessage (_channel _channel_param : string)
    (client_number : Z) (welcome_message : string)
| KickMessage (_channel _channel_param : string)
    (fields : list (string * Json))
| HeartbeatMessage (_channel _channel_param : string) (client_number : Z).

Definition msg__channel (m : IncomingMessage) : string :=
  match m with
  | IncomingDataMessage c _ _ | JoinResultMessage c _ _ _
  | KickMessage c _ _ | HeartbeatMessage c _ _ => c
  end.

Definition msg__channel_param (m : IncomingMessage) : string :=
  match m with
  | IncomingDataMessage _ p _ | JoinResultMessage _ p _ _
  | KickMessage _ p _ | HeartbeatMessage _ p _ => p
  end.

Inductive OutgoingMessage :=
| OutgoingDataMessage (channel channel_param : string) (data : Json)
| JoinChannelMessage (channel channel_param exclusive_key : string)
| QuitChannelMessage (channel channel_param exclusive_key : string).

(** What a [message] event of the transport carries: text that
    [JSON.parse] turns into a frame, or text it rejects. *)
Inductive Data :=
| Text (frame : IncomingMessage)
| Malformed.

(** ** Objects, timers and the log of outgoing calls *)

Inductive ReadyState := CONNECTING | OPEN | CLOSING | CLOSED.

Definition ReadyState_eqb (a b : ReadyState) : bool :=
  match a, b with
  | CONNECTING, CONNECTING | OPEN, OPEN | CLOSING, CLOSING | CLOSED, CLOSED => true
  | _, _ => false
  end.

Global Instance ReadyState_eq_dec : EqDecision ReadyState.
Proof. solve_decision. Defined.

Record WebSocket := {
  ws_address : string;
  handshakeTimeout : Z;
  readyState : ReadyState
}.

(** [class Channel]; the [socket] field is the one [Socket] of the store. *)
Record Channel := {
  channel : string;
  param : string;
  exclusiveKey : string;
  _joinTimeout : option nat
}.

(** The three arrow functions handed to [setTimeout]. *)
Inductive Callback :=
| JoinRetry (ch : nat)      (* [() => this._join()] of Channel [ch] *)
| HeartbeatPing             (* the outer callback of [_heartbeat] *)
| PongDeadline.             (* [() => this._ws.terminate()] *)

Record Timer := {
  callback : Callback;
  delay : Z;
  due : Z
}.

Inductive SocketEvent :=
| ev_open
| ev_close (code : Z) (reason : string)
| ev_reconnect (code : Z) (reason : string).

Inductive ChannelEvent :=
| ev_message (m : IncomingMessage)
| ev_join (welcome_message : string)
| ev_kick (m : IncomingMessage).

Inductive Call :=
| new_WebSocket (ws : nat) (address : string) (handshake_timeout : Z)
| ws_send (ws : nat) (m : OutgoingMessage)
| ws_ping (ws : nat)
| ws_terminate (ws : nat)
| ws_close (ws : nat)
| socket_emit (e : SocketEvent)
| channel_emit (ch : nat) (e : ChannelEvent)
| call_setTimeout (t : nat) (cb : Callback) (ms : Z)
| call_clearTimeout (t : option nat).

(** [class Socket] *)
Record Socket := {
  url : string;
  _ws : option nat;
  _pingTimeout : option nat;
  _channels : JsMap nat
}.

Record World := {
  this : Socket;
  sockets : list WebSocket;        (* every [new WebSocket], by creation *)
  objects : list Channel;          (* every [new Channel], by creation *)
  timers : list (option Timer);    (* [Some]: pending; [None]: fired or cleared *)
  now : Z;
  log : list Call
}.

Definition set_this (f : Socket → Socket) (w : World) : World :=
  {| this := f (this w); sockets := sockets w; objects := objects w;
     timers := timers w; now := now w; log := log w |}.
Definition set_sockets (f : list WebSocket → list WebSocket) (w : World) : World :=
  {| this := this w; sockets := f (sockets w); objects := objects w;
     timers := timers w; now := now w; log := log w |}.
Definition set_objects (f : list Channel → list Channel) (w : World) : World :=
  {| this := this w; sockets := sockets w; objects := f (objects w);
     timers := timers w; now := now w; log := log w |}.
Definition set_timers (f : list (option Timer) → list (option Timer)) (w : World) : World :=
  {| this := this w; sockets := sockets w; objects := objects w;
     timers := f (timers w); now := now w; log := log w |}.
Definition set_now (f : Z → Z) (w : World) : World :=
  {| this := this w; sockets := sockets w; objects := objects w;
     timers := timers w; now := f (now w); log := log w |}.
Definition add_log (c : Call) (w : World) : World :=
  {| this := this w; sockets := sockets w; objects := objects w;
     timers := timers w; now := now w; log := log w ++ [c] |}.

Definition set__ws (v : option nat) (s : Socket) : Socket :=
  {| url := url s; _ws := v; _pingTimeout := _pingTimeout s; _channels := _channels s |}.
Definition set__pingTimeout (v : option nat) (s : Socket) : Socket :=
  {| url := url s; _ws := _ws s; _pingTimeout := v; _channels := _channels s |}.
Definition set__channels (f : JsMap nat → JsMap nat) (s : Socket) : Socket :=
  {| url := url s; _ws := _ws s; _pingTimeout := _pingTimeout s;
     _channels := f (_channels s) |}.
Definition set_readyState (rs : ReadyState) (x : WebSocket) : WebSocket :=
  {| ws_address := ws_address x; handshakeTimeout := handshakeTimeout x;
     readyState := rs |}.
Definition set__joinTimeout (v : option nat) (c : Channel) : Channel :=
  {| channel := channel c; param := param c; exclusiveKey := exclusiveKey c;
     _joinTimeout := v |}.

(** ** Computations: a store, and a normal or abrupt completion *)

Inductive Error :=
| JsError (message : string)
| TypeError
| SyntaxError.

Inductive Completion (A : Type) :=
| Normal (a : A)
| Throw (e : Error).
Arguments Normal {A} a.
Arguments Throw {A} e.

Definition M (A : Type) : Type := World → Completion A * World.

Definition ret {A} (a : A) : M A := λ w, (Normal a, w).
Definition throw {A} (e : Error) : M A := λ w, (Throw e, w).
Definition bind {A B} (m : M A) (k : A → M B) : M B :=
  λ w, match m w with
       | (Normal a, w') => k a w'
       | (Throw e, w') => (Throw e, w')
       end.
Definition gets {A} (f : World → A) : M A := λ w, (Normal (f w), w).
Definition modify (f : World → World) : M unit := λ w, (Normal tt, f w).

Notation "x <- m ;; k" := (bind m (λ x, k))
  (at level 100, m at next level, right associativity).
Notation "m ;;; k" := (bind m (λ _, k))
  (at level 100, right associativity).

(** [for (const x of xs) body(x)] *)
Fixpoint for_of {A} (xs : list A) (body : A → M unit) : M unit :=
  match xs with
  | [] => ret tt
  | x :: xs' => body x ;;; for_of xs' body
  end.

(** *** Node timers *)

Definition setTimeout (cb : Callback) (ms : Z) : M nat :=
  λ w, let t := length (timers w) in
       (Normal t,
        add_log (call_setTimeout t cb ms)
          (set_timers (λ ts, ts ++ [Some {| callback := cb; delay := ms;
                                            due := now w + ms |}]) w)).

(** Clearing [undefined], a timer that has fired or one that was cleared
    already does nothing. *)
Definition clearTimeout (t : option nat) : M unit :=
  modify (λ w, add_log (call_clearTimeout t)
                 match t with
                 | Some i => set_timers (λ ts, <[i := None]> ts) w
                 | None => w
                 end).

Definition pending (w : World) (t : nat) : option Timer :=
  match timers w !! t with
  | Some (Some tm) => Some tm
  | _ => None
  end.

(** *** The transport ([ws])

    The library is not part of the program; the model keeps what the
    program observes of it.  Every call into it is logged, and of a
    socket's state only [readyState] is kept.

    - [send()] and [ping()] throw on a socket whose opening handshake has
      not finished, and return on any other.
    - [close()] and [terminate()] leave a closed socket alone and put any
      other in [CLOSING].  On a socket still in its handshake they abort the
      handshake, and the socket emits "error" before the call returns: the
      listener registered for "error" runs inside the call.

    Every other event of a socket reaches the program later, through the
    event loop below. *)

Definition WebSocket_new (address : string) (timeout : Z) : M nat :=
  λ w, let i := length (sockets w) in
       (Normal i,
        add_log (new_WebSocket i address timeout)
          (set_sockets (λ l, l ++ [{| ws_address := address;
                                      handshakeTimeout := timeout;
                                      readyState := CONNECTING |}]) w)).

Definition WebSocket_readyState (i : nat) : M ReadyState :=
  λ w, match sockets w !! i with
       | Some x => (Normal (readyState x), w)
       | None => (Throw TypeError, w)
       end.

Definition closing (x : WebSocket) : WebSocket :=
  match readyState x with
  | CLOSED => x
  | _ => set_readyState CLOSING x
  end.

Definition handshaking (i : nat) (w : World) : bool :=
  match sockets w !! i with
  | Some x => ReadyState_eqb (readyState x) CONNECTING
  | None => false
  end.

Definition not_open_error : Error :=
  JsError "WebSocket is not open: readyState 0 (CONNECTING)".

Definition WebSocket_send (i : nat) (m : OutgoingMessage) : M unit :=
  λ w, (if handshaking i w then Throw not_open_error else Normal tt,
        add_log (ws_send i m) w).
Definition WebSocket_ping (i : nat) : M unit :=
  λ w, (if handshaking i w then Throw not_open_error else Normal tt,
        add_log (ws_ping i) w).

(** What [close()] and [terminate()] share; [c] is the call that is
    logged and [error_listener] the listener registered for "error". *)
Definition WebSocket_shut (c : Call) (error_listener : M unit) (i : nat)
  : M unit :=
  aborted <- gets (handshaking i) ;;
  modify (λ w, add_log c (set_sockets (alter closing i) w)) ;;;
  if aborted then error_listener else ret tt.

Definition WebSocket_terminate (error_listener : M unit) (i : nat) : M unit :=
  WebSocket_shut (ws_terminate i) error_listener i.
Definition WebSocket_close (error_listener : M unit) (i : nat) : M unit :=
  WebSocket_shut (ws_close i) error_listener i.

(** [EventEmitter.emit]: listeners are observers, the emission is logged. *)
Definition Socket_emit (e : SocketEvent) : M unit :=
  modify (add_log (socket_emit e)).
Definition Channel_emit (ch : nat) (e : ChannelEvent) : M unit :=
  modify (add_log (channel_emit ch e)).

(** [JSON.parse(String(data)) as IncomingMessage] *)
Definition JSON_parse (d : Data) : M IncomingMessage :=
  match d with
  | Text m => ret m
  | Malformed => throw SyntaxError
  end.

(** ** The program *)

(** Reading [this._ws] for a member access. *)
Definition this__ws : M nat :=
  λ w, match _ws (this w) with
       | Some i => (Normal i, w)
       | None => (Throw TypeError, w)
       end.

(** A [Channel] reference. *)
Definition deref (o : nat) : M Channel :=
  λ w, match objects w !! o with
       | Some c => (Normal c, w)
       | None => (Throw TypeError, w)
       end.

(** [get isOpen()] *)
Definition Socket_isOpen : M bool :=
  i <- this__ws ;;
  rs <- WebSocket_readyState i ;;
  ret (ReadyState_eqb rs OPEN).

(** [_send(message)] *)
Definition Socket__send (message : OutgoingMessage) : M unit :=
  i <- this__ws ;;
  WebSocket_send i message.

(** [Channel.send(obj)] *)
Definition Channel_send (o : nat) (obj : Json) : M unit :=
  c <- deref o ;;
  Socket__send (OutgoingDataMessage (channel c) (param c) obj).

(** [Channel.quit()] *)
Definition Channel_quit (o : nat) : M unit :=
  c <- deref o ;;
  Socket__send (QuitChannelMessage (channel c) (param c) (exclusiveKey c)) ;;;
  modify (set_this (set__channels (Map_delete (channelKey (channel c) (param c))))).

(** [Channel._join()] *)
Definition Channel__join (o : nat) : M unit :=
  c <- deref o ;;
  open <- Socket_isOpen ;;
  if negb open then ret tt
  else
    Socket__send (JoinChannelMessage (channel c) (param c) (exclusiveKey c)) ;;;
    t <- setTimeout (JoinRetry o) 1000 ;;
    modify (set_objects (alter (set__joinTimeout (Some t)) o)).

(** [Channel._onMessage(message)] *)
Definition Channel__onMessage (o : nat) (message : IncomingMessage) : M unit :=
  match message with
  | IncomingDataMessage _ _ _ =>
    Channel_emit o (ev_message message)
  | JoinResultMessage _ _ _ welcome_message =>
    Channel_emit o (ev_join welcome_message) ;;;
    c <- deref o ;;
    clearTimeout (_joinTimeout c)
  | KickMessage _ _ _ =>
    Channel_emit o (ev_kick message)
  | HeartbeatMessage _ _ _ => ret tt
  end.

(** [this._pingTimeout = setTimeout(cb, ms)] *)
Definition assign__pingTimeout (cb : Callback) (ms : Z) : M unit :=
  t <- setTimeout cb ms ;;
  modify (set_this (set__pingTimeout (Some t))).

(** [Socket._heartbeat()]; its callback is [HeartbeatPing] of
    [run_callback]. *)
Definition Socket__heartbeat : M unit :=
  assign__pingTimeout HeartbeatPing 10000.

(** [Socket.connect()]; the five listeners it registers on the new
    transport are [on_open] to [on_error] below. *)
Definition Socket_connect : M unit :=
  ws <- gets (λ w, _ws (this w)) ;;
  active <- match ws with
            | None => ret false
            | Some i =>
              rs <- WebSocket_readyState i ;;
              ret (ReadyState_eqb rs CONNECTING || ReadyState_eqb rs OPEN)
            end ;;
  if (active : bool) then throw (JsError "Socket is already open")
  else
    address <- gets (λ w, url (this w)) ;;
    i <- WebSocket_new address 10000 ;;
    modify (set_this (set__ws (Some i))).

Definition on_open : M unit :=
  chs <- gets (λ w, Map_values (_channels (this w))) ;;
  for_of chs Channel__join ;;;
  Socket_emit ev_open ;;;
  Socket__heartbeat.

Definition on_pong : M unit :=
  t <- gets (λ w, _pingTimeout (this w)) ;;
  clearTimeout t ;;;
  Socket__heartbeat.

Definition on_message (data : Data) : M unit :=
  message <- JSON_parse data ;;
  ch <- gets (λ w, Map_get (channelKey (msg__channel message)
                                       (msg__channel_param message))
                           (_channels (this w))) ;;
  match ch with
  | Some o => Channel__onMessage o message
  | None => ret tt
  end.

Definition on_close (code : Z) (reason : string) : M unit :=
  t <- gets (λ w, _pingTimeout (this w)) ;;
  clearTimeout t ;;;
  if (code <=? 1000)%Z || (code >=? 2000)%Z then
    Socket_emit (ev_close code reason)
  else
    Socket_emit (ev_reconnect code reason) ;;;
    Socket_connect.

(** The "error" listener, [() => this._ws.terminate()].  When the current
    transport is in its handshake, [terminate()] runs this listener again
    before it returns; that run finds the transport [CLOSING], so the
    nesting ends there.  [depth] is the number of nested runs followed. *)
Fixpoint on_error_within (depth : nat) : M unit :=
  i <- this__ws ;;
  WebSocket_terminate
    match depth with
    | 0 => ret tt
    | S d => on_error_within d
    end
    i.

Definition on_error : M unit := on_error_within 1.

(** [Socket.channel(channel, param = "", exclusiveKey = "")]; an omitted
    argument is [None]. *)
Definition Socket_channel (channel : string) (param exclusiveKey : option string)
  : M nat :=
  let param := default EmptyString param in
  let exclusiveKey := default EmptyString exclusiveKey in
  let key := channelKey channel param in
  ch <- gets (λ w, Map_get key (_channels (this w))) ;;
  match ch with
  | Some o => ret o
  | None =>
    o <- (λ w, (Normal (length (objects w)),
                set_objects (λ l, l ++ [{| channel := channel; param := param;
                                           exclusiveKey := exclusiveKey;
                                           _joinTimeout := None |}]) w)) ;;
    modify (set_this (set__channels (Map_set key o))) ;;;
    Channel__join o ;;;
    ret o
  end.

(** [Socket.close()] *)
Definition Socket_close : M unit :=
  i <- this__ws ;;
  WebSocket_close on_error i.

(** The bodies of the timer callbacks. *)
Definition run_callback (cb : Callback) : M unit :=
  match cb with
  | JoinRetry o => Channel__join o
  | HeartbeatPing =>
    i <- this__ws ;;
    WebSocket_ping i ;;;
    assign__pingTimeout PongDeadline 1000
  | PongDeadline =>
    i <- this__ws ;;
    WebSocket_terminate on_error i
  end.

(** [new Socket(url)] *)
Definition empty_world (address : string) : World :=
  {| this := {| url := address; _ws := None; _pingTimeout := None;
                _channels := [] |};
     sockets := []; objects := []; timers := []; now := 0; log := [] |}.

Definition Socket_new (address : string) : World :=
  snd (Socket_connect (empty_world address)).

(** ** The event loop

    One turn of the loop runs one reaction to its end: a call of the
    consumer, a listener of the transport, or a timer callback.  A turn is
    [None] when the event cannot occur in the store at hand. *)

Inductive Event :=
| call_connect
| call_channel (channel : string) (param exclusiveKey : option string)
| call_close
| call_send (o : nat) (obj : Json)
| call_quit (o : nat)
| emit_open (ws : nat)
| emit_pong (ws : nat)
| emit_message (ws : nat) (data : Data)
| emit_close (ws : nat) (code : Z) (reason : string)
| emit_error (ws : nat)
| timer_fires (t : nat)
| elapse (ms : Z).

(** A transport emits [open] once, out of [CONNECTING], and [close] once;
    it has set its [readyState] when the listener runs. *)
Definition transport_emits (i : nat) (allowed : ReadyState → bool)
    (next : option ReadyState) (listener : M unit)
  : World → option (Completion unit * World) :=
  λ w, match sockets w !! i with
       | Some x =>
         if allowed (readyState x)
         then Some (listener
                      match next with
                      | Some rs => set_sockets (alter (set_readyState rs) i) w
                      | None => w
                      end)
         else None
       | None => None
       end.

Definition receiving (rs : ReadyState) : bool :=
  ReadyState_eqb rs OPEN || ReadyState_eqb rs CLOSING.

Definition discard {A} (r : Completion A * World) : Completion unit * World :=
  match r with
  | (Normal _, w) => (Normal tt, w)
  | (Throw e, w) => (Throw e, w)
  end.

Definition step (e : Event) (w : World) : option (Completion unit * World) :=
  match e with
  | call_connect => Some (Socket_connect w)
  | call_channel c p k => Some (discard (Socket_channel c p k w))
  | call_close => Some (Socket_close w)
  | call_send o obj =>
    if decide (o < length (objects w)) then Some (Channel_send o obj w) else None
  | call_quit o =>
    if decide (o < length (objects w)) then Some (Channel_quit o w) else None
  | emit_open i =>
    transport_emits i (λ rs, ReadyState_eqb rs CONNECTING) (Some OPEN) on_open w
  | emit_pong i => transport_emits i receiving None on_pong w
  | emit_message i d => transport_emits i receiving None (on_message d) w
  | emit_close i code reason =>
    transport_emits i (λ rs, negb (ReadyState_eqb rs CLOSED)) (Some CLOSED)
      (on_close code reason) w
  | emit_error i =>
    transport_emits i (λ rs, negb (ReadyState_eqb rs CLOSED)) (Some CLOSING)
      on_error w
  | timer_fires t =>
    match pending w t with
    | Some tm =>
      if (due tm <=? now w)%Z
      then Some (run_callback (callback tm) (set_timers (λ ts, <[t := None]> ts) w))
      else None
    | None => None
    end
  | elapse ms =>
    if (0 <=? ms)%Z then Some (Normal tt, set_now (λ n, (n + ms)%Z) w) else None
  end.

Fixpoint run (es : list Event) (w : World) : option World :=
  match es with
  | [] => Some w
  | e :: es' =>
    match step e w with
    | Some (_, w') => run es' w'
    | None => None
    end
  end.

Inductive reachable : World → Prop :=
| reachable_new address : reachable (Socket_new address)
| reachable_step w e r w' :
    reachable w → step e w = Some (r, w') → reachable w'.

(** ** Scenarios *)

(** The retry timer [t] of a Channel firing one time unit after it was
    armed, [n] times in a row; each firing arms the next timer, whose
    handle is the length of the timer table. *)
Fixpoint retry_rounds (n t : nat) (w : World) : option World :=
  match n with
  | 0 => Some w
  | S n' =>
    match run [elapse 1000; timer_fires t] w with
    | Some w' => retry_rounds n' (length (timers w)) w'
    | None => None
    end
  end.

(** What [n] such rounds add to the log: each a join request and the
    next timer, armed with the same 1000 ms. *)
Fixpoint retry_log (i o : nat) (ch p k : string) (t : nat) (n : nat) : list Call :=
  match n with
  | 0 => []
  | S n' =>
    ws_send i (JoinChannelMessage ch p k)
      :: call_setTimeout t (JoinRetry o) 1000
      :: retry_log i o ch p k (S t) n'
  end.

Definition endpoint : string := "wss://ws.luogu.com.cn/ws".

(** A Channel requested right after [new Socket(url)], while the
    transport is still connecting. *)
Definition requested_while_connecting : option World :=
  run [call_channel "lobby" (Some "42") None] (Socket_new endpoint).

(** The first transport has opened. *)
Definition opened : World :=
  default (Socket_new endpoint) (run [emit_open 0] (Socket_new endpoint)).

(** Channel ("lobby", "42") was then requested: Channel 0, described by
    [lobby], on the open transport 0. *)
Definition lobby_joined : World :=
  default opened (run [call_channel "lobby" (Some "42") None] opened).

Definition lobby : Channel :=
  {| channel := "lobby"; param := "42"; exclusiveKey := EmptyString;
     _joinTimeout := Some 1 |}.

Definition transport0 (rs : ReadyState) : WebSocket :=
  {| ws_address := endpoint; handshakeTimeout := 10000; readyState := rs |}.

(** The consumer closes the open Socket and connects again at once; the
    second transport opens 150 ms after the first did, and the first has
    not reported its close.  Each [open] armed a ping timer: timers 0 and
    1. *)
Definition two_heartbeats : list Event :=
  [emit_open 0; elapse 50; call_close; call_connect; elapse 100; emit_open 1].

(** Both ping timers fire when due, 150 ms apart; each pong arrives
    200 ms after its ping. *)
Definition both_pings : list Event :=
  [elapse 9850; timer_fires 0; elapse 150; timer_fires 1].

Definition both_pongs : list Event :=
  [elapse 50; emit_pong 1; elapse 150; emit_pong 1].

(** The transport drops 300 ms after the join request, before any
    acknowledgment, and the next one opens 100 ms later: the retry timer
    armed by the first request (timer 1, due at 1000) is still pending when
    the [open] listener joins the Channel again (timer 2). *)
Definition fast_reconnect : list Event :=
  [emit_open 0; call_channel "lobby" (Some "42") None; elapse 300;
   emit_close 0 1006 "gone"; elapse 100; emit_open 1].

Definition join_result_lobby : Event :=
  emit_message 1 (Text (JoinResultMessage "lobby" "42" 1 "hi")).

(** ** Vocabulary of the properties *)

Definition current_transport (w : World) (i : nat) (x : WebSocket) : Prop :=
  _ws (this w) = Some i ∧ sockets w !! i = Some x.

Definition is_open (w : World) : Prop :=
  ∃ i x, current_transport w i x ∧ readyState x = OPEN.

(** What a Channel is created with and keeps. *)
Definition identity (c : Channel) : string * string * string :=
  (channel c, param c, exclusiveKey c).

Definition registered (w : World) (ch p k : string) : Prop :=
  ∃ o c, Map_get (channelKey ch p) (_channels (this w)) = Some o ∧
         objects w !! o = Some c ∧ identity c = (ch, p, k).

Definition join_sent (w : World) (ch p k : string) : Prop :=
  ∃ i, ws_send i (JoinChannelMessage ch p k) ∈ log w.

Definition quit_sent (w : World) (ch p : string) : Prop :=
  ∃ i k, ws_send i (QuitChannelMessage ch p k) ∈ log w.

(** Every entry of the registry refers to a Channel of the store, under
    the key of that Channel. *)
Definition registry_sound (w : World) : Prop :=
  ∀ k o, (k, o) ∈ _channels (this w) →
         ∃ c, objects w !! o = Some c ∧ channelKey (channel c) (param c) = k.

(** [this._ws] refers to a transport of the store. *)
Definition transport_bound (w : World) : Prop :=
  ∃ i, _ws (this w) = Some i ∧ i < length (sockets w).

(** While the transport is open, every registered Channel has had its
    join request sent. *)
Definition joined_when_open (w : World) : Prop :=
  is_open w → ∀ ch p k, registered w ch p k → join_sent w ch p k.

(** A Channel of the store is registered under its key, or a Channel of
    its (channel, param) has been quit. *)
Definition registered_or_quit (w : World) : Prop :=
  ∀ o c, objects w !! o = Some c →
         is_Some (Map_get (channelKey (channel c) (param c)) (_channels (this w))) ∨
         quit_sent w (channel c) (param c).

(** [this._pingTimeout] holds [undefined] or a timer that was created. *)
Definition ping_timer_bound (w : World) : Prop :=
  ∀ t, _pingTimeout (this w) = Some t → t < length (timers w).

(** What no code of the program undoes: the address, the transports and
    Channels that exist, what a Channel was created with, and the log. *)
Definition evolves (w w' : World) : Prop :=
  url (this w') = url (this w) ∧
  length (sockets w) ≤ length (sockets w') ∧
  (∀ o c, objects w !! o = Some c →
          ∃ c', objects w' !! o = Some c' ∧ identity c' = identity c) ∧
  (∃ l, log w' = log w ++ l).

(** A computation respects a relation between the store it starts in and
    the one it leaves, whether it returns or throws. *)
Definition respects {A} (R : World → World → Prop) (m : M A) : Prop :=
  ∀ w, R w (snd (m w)).

Definition same_registry (w w' : World) : Prop :=
  _channels (this w') = _channels (this w).

Definition same_population (w w' : World) : Prop :=
  length (objects w') = length (objects w).

(** The current transport is not open afterwards unless it was before. *)
Definition opens_nothing (w w' : World) : Prop :=
  is_open w' → is_open w.

(** A property of the store that a computation keeps. *)
Definition preserves (P : World → Prop) (w w' : World) : Prop := P w → P w'.

(** Every join request in the log carries the identity of a Channel of the
    store. *)
Definition joins_accounted (w : World) : Prop :=
  ∀ i ch p k, ws_send i (JoinChannelMessage ch p k) ∈ log w →
              ∃ o c, objects w !! o = Some c ∧ identity c = (ch, p, k).

(** The store [_join()] of Channel [o] leaves when the transport [i] is
    open: one frame sent, one timer armed and kept in [_joinTimeout]. *)
Definition join_requested (i o : nat) (c : Channel) (w : World) : World :=
  set_objects (alter (set__joinTimeout (Some (length (timers w)))) o)
    (add_log (call_setTimeout (length (timers w)) (JoinRetry o) 1000)
       (set_timers (λ ts, ts ++ [Some {| callback := JoinRetry o;
                                         delay := 1000;
                                         due := now w + 1000 |}])
          (add_log (ws_send i (JoinChannelMessage (channel c) (param c)
                                                  (exclusiveKey c))) w))).

(** The store [channel()] has built when it calls [_join()] on a Channel
    it has just created and registered. *)
Definition created (ch p k : string) (w : World) : World :=
  set_this (set__channels (Map_set (channelKey ch p) (length (objects w))))
    (set_objects (λ l, l ++ [{| channel := ch; param := p; exclusiveKey := k;
                                _joinTimeout := None |}]) w).

(** The store [close()] or [terminate()], logged as [c], leaves of a
    transport [i] that is past its handshake. *)
Definition shut (c : Call) (i : nat) (w : World) : World :=
  add_log c (set_sockets (alter closing i) w).

(** The store [quit()] of Channel [c] leaves. *)
Definition quitted (i : nat) (c : Channel) (w : World) : World :=
  set_this (set__channels (Map_delete (channelKey (channel c) (param c))))
    (add_log (ws_send i (QuitChannelMessage (channel c) (param c)
                                            (exclusiveKey c))) w).

(** The store [connect()] leaves when it does not throw. *)
Definition connected (w : World) : World :=
  set_this (set__ws (Some (length (sockets w))))
    (add_log (new_WebSocket (length (sockets w)) (url (this w)) 10000)
       (set_sockets (λ l, l ++ [{| ws_address := url (this w);
                                   handshakeTimeout := 10000;
                                   readyState := CONNECTING |}]) w)).

Definition is_join_request (c : Call) : bool :=
  match c with
  | ws_send _ (JoinChannelMessage _ _ _) => true
  | _ => false
  end.

(** Relations that the log, a cleared timer, a transport that closes, a
    newly armed ping timer, [connect()] and [_join()] respect; every
    listener and callback then respects them too. *)
Class Harmless (R : World → World → Prop) : Prop := {
  harmless_preorder :: PreOrder R;
  harmless_log c w : is_join_request c = false → R w (add_log c w);
  harmless_clear t w : R w (set_timers (λ ts, <[t := None]> ts) w);
  harmless_now f w : R w (set_now f w);
  harmless_sockets f i w :
    (∀ x, readyState (f x) = OPEN → readyState x = OPEN) →
    R w (set_sockets (alter f i) w);
  harmless_assign cb ms : respects R (assign__pingTimeout cb ms);
  harmless_connect : respects R Socket_connect;
  harmless_join o : respects R (Channel__join o)
}.

Class AllowsRegistry (R : World → World → Prop) : Prop :=
  allows_registry f w : R w (set_this (set__channels f) w).

Class AllowsCreation (R : World → World → Prop) : Prop :=
  allows_creation c w : R w (set_objects (λ l, l ++ [c]) w).

Class AllowsOpening (R : World → World → Prop) : Prop :=
  allows_opening i w : R w (set_sockets (alter (set_readyState OPEN) i) w).

(** Every transport but the current one is closing or closed. *)
Definition one_live_transport (w : World) : Prop :=
  ∀ j x, sockets w !! j = Some x → _ws (this w) ≠ Some j →
         readyState x = CLOSING ∨ readyState x = CLOSED.

(** The current transport stays the current one and a transport changes
    its state only to [CLOSING] or [CLOSED]. *)
Definition only_closes (w w' : World) : Prop :=
  _ws (this w') = _ws (this w) ∧
  ∀ j x', sockets w' !! j = Some x' →
    ∃ x, sockets w !! j = Some x ∧
         (readyState x' = readyState x ∨ readyState x' = CLOSING ∨
          readyState x' = CLOSED).

(** The consumer closes the open Socket and connects again before the
    first transport has reported its close: transport 0 is closing,
    transport 1 is the current one and opens. *)
Definition reconnected_by_hand : World :=
  default lobby_joined
    (run [call_close; call_connect; emit_open 1] lobby_joined).

(** * Properties *)

(** ** The registry key determines the pair *)

Lemma unquoteChar_quote (c : ascii) (r : string) :
  unquoteChar (QuoteJSONChar c +:+ r) = Some (c, r).
Proof.
  destruct c as [[] [] [] [] [] [] [] []]; reflexivity.
Qed.

Lemma unquoteChar_dquote (r : string) : unquoteChar (String dquote r) = None.
Proof. reflexivity. Qed.

Lemma string_app_cons (x : ascii) (a b : string) :
  String x a +:+ b = String x (a +:+ b).
Proof. reflexivity. Qed.

Lemma string_app_nil (b : string) : EmptyString +:+ b = b.
Proof. reflexivity. Qed.

Lemma string_app_assoc (a b c : string) : (a +:+ b) +:+ c = a +:+ (b +:+ c).
Proof.
  induction a as [|x a IH]; [reflexivity|].
  rewrite !string_app_cons. f_equal. exact IH.
Qed.

Lemma QuoteJSONBody_cons (c : ascii) (s : string) :
  QuoteJSONBody (String c s) = QuoteJSONChar c +:+ QuoteJSONBody s.
Proof. reflexivity. Qed.

Lemma QuoteJSONBody_inj (s1 : string) :
  ∀ s2 r1 r2,
    QuoteJSONBody s1 +:+ String dquote r1 = QuoteJSONBody s2 +:+ String dquote r2 →
    s1 = s2 ∧ r1 = r2.
Proof.
  induction s1 as [|c1 s1 IH]; intros [|c2 s2] r1 r2 H;
    rewrite ?QuoteJSONBody_cons, ?string_app_assoc in H.
  - injection H as ->. split; reflexivity.
  - apply (f_equal unquoteChar) in H.
    rewrite unquoteChar_quote in H. discriminate.
  - apply (f_equal unquoteChar) in H.
    rewrite unquoteChar_quote in H. discriminate.
  - apply (f_equal unquoteChar) in H.
    rewrite !unquoteChar_quote in H.
    injection H as -> H. apply IH in H as [-> ->]. split; reflexivity.
Qed.

Lemma channelKey_inj (c1 p1 c2 p2 : string) :
  channelKey c1 p1 = channelKey c2 p2 → c1 = c2 ∧ p1 = p2.
Proof.
  unfold channelKey, JSON_stringify_pair, QuoteJSONString.
  rewrite !string_app_cons, !string_app_nil, !string_app_assoc.
  intros H. injection H as H.
  apply QuoteJSONBody_inj in H as [-> H]. split; [reflexivity|].
  rewrite ?string_app_cons, ?string_app_nil, ?string_app_assoc in H.
  injection H as H.
  apply QuoteJSONBody_inj in H as [-> _]. reflexivity.
Qed.

Example channelKey_lobby :
  channelKey "lobby" "42" =
  "[" +:+ String dquote "lobby" +:+ String dquote "," +:+
  String dquote "42" +:+ String dquote "]".
Proof. reflexivity. Qed.

(** A quote in a name is escaped, so the key of ([a"], [b]) is not the key
    of ([a], ["b]). *)
Example channelKey_quote :
  channelKey (String "a" (String dquote EmptyString)) "b" =
  "[" +:+ String dquote "a" +:+ String backslash (String dquote EmptyString) +:+
  String dquote "," +:+ String dquote "b" +:+ String dquote "]".
Proof. reflexivity. Qed.

Example channelKey_control :
  QuoteJSONString (String "001" (String "010" EmptyString)) =
  String dquote (String backslash "u0001" +:+ String backslash "n" +:+
                 String dquote EmptyString).
Proof. reflexivity. Qed.

(** ** The [Map] operations *)

Section JsMap_facts.
Context {V : Type}.
Implicit Types (m : JsMap V) (k : string) (v : V).

Lemma Map_get_set_eq m k v : Map_get k (Map_set k v m) = Some v.
Proof.
  induction m as [|[k' v'] m IH]; simpl.
  - now rewrite String.eqb_refl.
  - destruct (String.eqb k k') eqn:E; simpl; rewrite E; [reflexivity | exact IH].
Qed.

Lemma Map_get_set_ne m k k' v : k ≠ k' → Map_get k' (Map_set k v m) = Map_get k' m.
Proof.
  intros Hne. induction m as [|[k0 v0] m IH]; simpl.
  - destruct (String.eqb k' k) eqn:E; [|reflexivity].
    apply String.eqb_eq in E. congruence.
  - destruct (String.eqb k k0) eqn:E; simpl.
    + apply String.eqb_eq in E. subst k0.
      destruct (String.eqb k' k) eqn:E'; [|reflexivity].
      apply String.eqb_eq in E'. congruence.
    + now rewrite IH.
Qed.

Lemma Map_get_delete_eq m k : Map_get k (Map_delete k m) = None.
Proof.
  induction m as [|[k' v'] m IH]; simpl; [reflexivity|].
  destruct (String.eqb k k') eqn:E; simpl; [exact IH | now rewrite E].
Qed.

Lemma Map_get_delete_ne m k k' : k ≠ k' → Map_get k' (Map_delete k m) = Map_get k' m.
Proof.
  intros Hne. induction m as [|[k0 v0] m IH]; simpl; [reflexivity|].
  destruct (String.eqb k k0) eqn:E; simpl.
  - apply String.eqb_eq in E. subst k0.
    destruct (String.eqb k' k) eqn:E'; [|exact IH].
    apply String.eqb_eq in E'. congruence.
  - now rewrite IH.
Qed.

Lemma Map_get_elem_of m k v : Map_get k m = Some v → (k, v) ∈ m.
Proof.
  induction m as [|[k0 v0] m IH]; simpl; [discriminate|].
  destruct (String.eqb k k0) eqn:E.
  - apply String.eqb_eq in E. intros [= ->]. subst. apply list_elem_of_here.
  - intros H. apply list_elem_of_further, IH, H.
Qed.

Lemma Map_set_elem_of m k v k' v' :
  (k', v') ∈ Map_set k v m → (k', v') ∈ m ∨ (k' = k ∧ v' = v).
Proof.
  induction m as [|[k0 v0] m IH]; simpl.
  - intros H. apply list_elem_of_singleton in H. injection H as -> ->. now right.
  - destruct (String.eqb k k0) eqn:E.
    + apply String.eqb_eq in E. subst k0. intros H.
      apply elem_of_cons in H as [H|H].
      * injection H as -> ->. now right.
      * left. now apply list_elem_of_further.
    + intros H. apply elem_of_cons in H as [H|H].
      * left. rewrite H. apply list_elem_of_here.
      * destruct (IH H) as [H'|H']; [left; now apply list_elem_of_further | now right].
Qed.

Lemma Map_delete_elem_of m k k' v' : (k', v') ∈ Map_delete k m → (k', v') ∈ m.
Proof.
  induction m as [|[k0 v0] m IH]; simpl; [easy|].
  destruct (String.eqb k k0) eqn:E.
  - intros H. now apply list_elem_of_further, IH.
  - intros H. apply elem_of_cons in H as [H|H].
    + rewrite H. apply list_elem_of_here.
    + now apply list_elem_of_further, IH.
Qed.

Lemma Map_values_elem_of m v : v ∈ Map_values m ↔ ∃ k, (k, v) ∈ m.
Proof.
  unfold Map_values. rewrite list_elem_of_fmap. split.
  - intros [[k v'] [-> H]]. now exists k.
  - intros [k H]. now exists (k, v).
Qed.
End JsMap_facts.

(** ** Running the methods on a store *)

Ltac run_m :=
  cbv beta delta
    [Socket_connect Socket_close Socket_isOpen Socket__send
     Socket__heartbeat assign__pingTimeout Channel_send Channel_quit Channel__join
     Channel__onMessage on_pong on_close on_error on_message JSON_parse
     run_callback this__ws deref WebSocket_readyState WebSocket_new
     WebSocket_send WebSocket_ping WebSocket_terminate WebSocket_close
     WebSocket_shut
     Socket_emit Channel_emit setTimeout clearTimeout
     bind ret throw gets modify];
  simpl.

Lemma ReadyState_eqb_eq (a b : ReadyState) : ReadyState_eqb a b = true ↔ a = b.
Proof. destruct a, b; simpl; split; congruence. Qed.

Lemma handshaking_not (w : World) (i : nat) (x : WebSocket) :
  sockets w !! i = Some x → readyState x ≠ CONNECTING → handshaking i w = false.
Proof.
  intros Hx Hrs. unfold handshaking. rewrite Hx.
  destruct (readyState x); simpl; congruence.
Qed.

Lemma handshaking_connecting (w : World) (i : nat) (x : WebSocket) :
  sockets w !! i = Some x → readyState x = CONNECTING → handshaking i w = true.
Proof. intros Hx Hrs. unfold handshaking. now rewrite Hx, Hrs. Qed.

Lemma handshaking_shut (c : Call) (i : nat) (w : World) :
  handshaking i (shut c i w) = false.
Proof.
  unfold handshaking, shut. simpl. rewrite list_lookup_alter_eq.
  destruct (sockets w !! i) as [x|]; simpl; [|reflexivity].
  unfold closing. destruct (readyState x) eqn:E; simpl; rewrite ?E; reflexivity.
Qed.

Lemma WebSocket_shut_settled (c : Call) (l : M unit) (i : nat) (w : World) :
  handshaking i w = false → WebSocket_shut c l i w = (Normal tt, shut c i w).
Proof. intros H. unfold WebSocket_shut, bind, gets, modify. now rewrite H. Qed.

Lemma WebSocket_shut_aborted (c : Call) (l : M unit) (i : nat) (w : World) :
  handshaking i w = true → WebSocket_shut c l i w = l (shut c i w).
Proof. intros H. unfold WebSocket_shut, bind, gets, modify. now rewrite H. Qed.

Lemma this__ws_bind {A} (k : nat → M A) (i : nat) (w : World) :
  _ws (this w) = Some i → (j <- this__ws ;; k j) w = k i w.
Proof. intros Hi. unfold bind, this__ws, gets. now rewrite Hi. Qed.

Lemma this__ws_undefined {A} (k : nat → M A) (w : World) :
  _ws (this w) = None → (j <- this__ws ;; k j) w = (Throw TypeError, w).
Proof. intros Hi. unfold bind, this__ws, gets. now rewrite Hi. Qed.

Lemma on_error_within_eq (d : nat) :
  on_error_within d =
  (i <- this__ws ;;
   WebSocket_terminate
     match d with 0 => ret tt | S d' => on_error_within d' end i).
Proof. now destruct d. Qed.

(** The listener run on a current transport that is past its handshake. *)
Lemma on_error_within_settled (d i : nat) (w : World) :
  _ws (this w) = Some i → handshaking i w = false →
  on_error_within d w = (Normal tt, shut (ws_terminate i) i w).
Proof.
  intros Hi Hh. rewrite on_error_within_eq, (this__ws_bind _ i w Hi).
  now apply WebSocket_shut_settled.
Qed.

(** The listener run while the current transport is in its handshake:
    the call of [terminate()] is followed by one nested run. *)
Lemma on_error_within_aborted (d i : nat) (w : World) :
  _ws (this w) = Some i → handshaking i w = true →
  on_error_within (S d) w =
  (Normal tt, shut (ws_terminate i) i (shut (ws_terminate i) i w)).
Proof.
  intros Hi Hh. rewrite on_error_within_eq, (this__ws_bind _ i w Hi).
  unfold WebSocket_terminate. rewrite WebSocket_shut_aborted by exact Hh.
  apply on_error_within_settled; [exact Hi | apply handshaking_shut].
Qed.

(** One nested run is all there is: following more of them changes
    nothing. *)
Lemma on_error_within_enough (d : nat) (w : World) :
  on_error_within (S d) w = on_error w.
Proof.
  unfold on_error. destruct (_ws (this w)) as [i|] eqn:Hi.
  - destruct (handshaking i w) eqn:Hh.
    + now rewrite !(on_error_within_aborted _ i w Hi Hh).
    + now rewrite !(on_error_within_settled _ i w Hi Hh).
  - now rewrite !on_error_within_eq, !(this__ws_undefined _ w Hi).
Qed.

(** So [on_error] is the listener of the source: it calls [terminate()]
    with itself registered for "error". *)
Lemma on_error_unfold (w : World) :
  on_error w = (i <- this__ws ;; WebSocket_terminate on_error i) w.
Proof.
  rewrite <- (on_error_within_enough 1). now rewrite on_error_within_eq.
Qed.

Lemma Socket_isOpen_eq (w : World) (i : nat) (x : WebSocket) :
  current_transport w i x →
  Socket_isOpen w = (Normal (ReadyState_eqb (readyState x) OPEN), w).
Proof. intros [Hi Hx]. run_m. now rewrite Hi, Hx. Qed.

(** [is_open] is what the getter [isOpen] answers. *)
Lemma is_open_isOpen (w : World) :
  is_open w ↔ Socket_isOpen w = (Normal true, w).
Proof.
  split.
  - intros (i & x & Hcur & Hrs). rewrite (Socket_isOpen_eq w i x Hcur).
    now rewrite Hrs.
  - run_m. destruct (_ws (this w)) as [i|] eqn:Hi; [|discriminate].
    simpl. destruct (sockets w !! i) as [x|] eqn:Hx; [|discriminate].
    simpl. intros [= H]. exists i, x. repeat split; auto.
    now apply ReadyState_eqb_eq.
Qed.

Lemma Channel__join_closed (w : World) (o i : nat) (c : Channel) (x : WebSocket) :
  objects w !! o = Some c → current_transport w i x → readyState x ≠ OPEN →
  Channel__join o w = (Normal tt, w).
Proof.
  intros Hc [Hi Hx] Hrs. run_m. rewrite Hc. simpl. rewrite Hi. simpl.
  rewrite Hx. simpl. destruct (readyState x); simpl; congruence.
Qed.

Lemma Channel__join_open (w : World) (o i : nat) (c : Channel) (x : WebSocket) :
  objects w !! o = Some c → current_transport w i x → readyState x = OPEN →
  Channel__join o w = (Normal tt, join_requested i o c w).
Proof.
  intros Hc [Hi Hx] Hrs. run_m. rewrite Hc. simpl. rewrite Hi. simpl.
  rewrite Hx. simpl. rewrite Hrs. simpl. rewrite Hi.
  rewrite (handshaking_not w i x Hx) by congruence. reflexivity.
Qed.

Lemma Channel__join_cases (w : World) (o : nat) :
  snd (Channel__join o w) = w ∨
  ∃ c i x, objects w !! o = Some c ∧ current_transport w i x ∧
           readyState x = OPEN ∧
           Channel__join o w = (Normal tt, join_requested i o c w).
Proof.
  destruct (objects w !! o) as [c|] eqn:Hc; [|left; run_m; now rewrite Hc].
  destruct (_ws (this w)) as [i|] eqn:Hi;
    [|left; run_m; rewrite Hc; simpl; now rewrite Hi].
  destruct (sockets w !! i) as [x|] eqn:Hx;
    [|left; run_m; rewrite Hc; simpl; rewrite Hi; simpl; now rewrite Hx].
  destruct (decide (readyState x = OPEN)) as [Hrs|Hrs].
  - right. exists c, i, x. repeat split; auto.
    now apply Channel__join_open with x.
  - left. now rewrite (Channel__join_closed w o i c x).
Qed.

(** C7. [connect()] on a transport that is connecting or open throws
    "Socket is already open" and leaves the store as it was; on a transport
    that is closing or closed it returns normally, having created one new
    [WebSocket] for the configured [url] with a handshake timeout of 10000
    ms, in state [CONNECTING], under a handle no earlier transport has, and
    made it the current one; nothing else changes. *)
Theorem connect_guard (w : World) (i : nat) (x : WebSocket) :
  _ws (this w) = Some i → sockets w !! i = Some x →
  (readyState x = CONNECTING ∨ readyState x = OPEN →
   Socket_connect w = (Throw (JsError "Socket is already open"), w)) ∧
  (readyState x = CLOSING ∨ readyState x = CLOSED →
   ∃ w', Socket_connect w = (Normal tt, w') ∧
     _ws (this w') = Some (length (sockets w)) ∧
     sockets w !! length (sockets w) = None ∧
     sockets w' = sockets w ++ [{| ws_address := url (this w);
                                   handshakeTimeout := 10000;
                                   readyState := CONNECTING |}] ∧
     log w' = log w ++ [new_WebSocket (length (sockets w)) (url (this w)) 10000] ∧
     url (this w') = url (this w) ∧
     _pingTimeout (this w') = _pingTimeout (this w) ∧
     _channels (this w') = _channels (this w) ∧
     objects w' = objects w ∧ timers w' = timers w ∧ now w' = now w).
Proof.
  intros Hi Hx. split; intros Hrs.
  - run_m. rewrite Hi. simpl. rewrite Hx.
    destruct Hrs as [-> | ->]; reflexivity.
  - eexists. split.
    + run_m. rewrite Hi. simpl. rewrite Hx.
      destruct Hrs as [-> | ->]; reflexivity.
    + simpl. repeat split. apply lookup_ge_None_2. lia.
Qed.

(** ** Relations every computation respects *)

Section Respects.
Context (R : World → World → Prop) `{!PreOrder R}.

Lemma respects_ret {A} (a : A) : respects R (ret a).
Proof. intros w. simpl. reflexivity. Qed.

Lemma respects_throw {A} (e : Error) : respects R (throw (A := A) e).
Proof. intros w. simpl. reflexivity. Qed.

Lemma respects_gets {A} (f : World → A) : respects R (gets f).
Proof. intros w. simpl. reflexivity. Qed.

Lemma respects_modify (f : World → World) :
  (∀ w, R w (f w)) → respects R (modify f).
Proof. intros H w. apply H. Qed.

Lemma respects_bind {A B} (m : M A) (k : A → M B) :
  respects R m → (∀ a, respects R (k a)) → respects R (bind m k).
Proof.
  intros Hm Hk w. unfold bind. specialize (Hm w).
  destruct (m w) as [[a|e] w1]; simpl in *; [|exact Hm].
  etransitivity; [exact Hm | apply Hk].
Qed.

Lemma respects_for_of {A} (xs : list A) (body : A → M unit) :
  (∀ x, respects R (body x)) → respects R (for_of xs body).
Proof.
  intros Hb. induction xs as [|x xs IH]; simpl.
  - apply respects_ret.
  - apply respects_bind; [apply Hb | intros _; exact IH].
Qed.

End Respects.

Global Instance evolves_preorder : PreOrder evolves.
Proof.
  split.
  - intros w. repeat split; [lia | eauto | exists []; now rewrite app_nil_r].
  - intros w1 w2 w3 (Hu & Hs & Ho & [l Hl]) (Hu' & Hs' & Ho' & [l' Hl']).
    repeat split; [congruence | lia | | exists (l ++ l'); rewrite Hl', Hl; now rewrite app_assoc].
    intros o c Hc. destruct (Ho _ _ Hc) as (c1 & Hc1 & E1).
    destruct (Ho' _ _ Hc1) as (c2 & Hc2 & E2). exists c2. split; congruence.
Qed.

Lemma respects_this__ws R `{!PreOrder R} : respects R this__ws.
Proof. intros w. unfold this__ws. destruct (_ws (this w)); reflexivity. Qed.

Lemma respects_deref R `{!PreOrder R} o : respects R (deref o).
Proof. intros w. unfold deref. destruct (objects w !! o); reflexivity. Qed.

Lemma respects_readyState R `{!PreOrder R} i : respects R (WebSocket_readyState i).
Proof.
  intros w. unfold WebSocket_readyState. destruct (sockets w !! i); reflexivity.
Qed.

Lemma respects_isOpen R `{!PreOrder R} : respects R Socket_isOpen.
Proof.
  unfold Socket_isOpen.
  apply respects_bind; [apply _ | apply respects_this__ws, _ | intros i].
  apply respects_bind; [apply _ | apply respects_readyState, _ | intros rs].
  apply respects_ret, _.
Qed.

Lemma closing_not_open (x : WebSocket) :
  readyState (closing x) = OPEN → readyState x = OPEN.
Proof. unfold closing. destruct (readyState x) eqn:E; simpl; congruence. Qed.

(** Unfolds one layer of a computation and applies the matching rule. *)
Ltac respects_step :=
  match goal with
  | |- PreOrder _ => apply _
  | |- respects _ (bind _ _) => apply respects_bind
  | |- respects _ (ret _) => apply respects_ret
  | |- respects _ (throw _) => apply respects_throw
  | |- respects _ (gets _) => apply respects_gets
  | |- respects _ (for_of _ _) => apply respects_for_of
  | |- respects _ this__ws => apply respects_this__ws
  | |- respects _ (deref _) => apply respects_deref
  | |- respects _ (WebSocket_readyState _) => apply respects_readyState
  | |- respects _ Socket_isOpen => apply respects_isOpen
  | |- respects _ Socket_connect => apply harmless_connect
  | |- respects _ (Channel__join _) => apply harmless_join
  | |- respects _ (modify _) => apply respects_modify; intros ?
  | |- respects _ (match ?x with _ => _ end) => destruct x
  | |- respects _ (if ?b then _ else _) => destruct b
  | |- ∀ _, _ => intros ?
  | |- ?R _ (add_log _ _) => apply harmless_log; reflexivity
  | |- ?R ?w (add_log ?c ?w') =>
    transitivity w'; [| apply harmless_log; reflexivity]
  | |- respects _ (assign__pingTimeout _ _) => apply harmless_assign
  | |- respects _ (WebSocket_send _ _) => intros ?; unfold WebSocket_send; simpl
  | |- respects _ (WebSocket_ping _) => intros ?; unfold WebSocket_ping; simpl
  | |- ?R _ (set_timers _ _) => apply harmless_clear
  | |- ?R _ (set_sockets (alter closing _) _) =>
    apply harmless_sockets, closing_not_open
  | |- ?R ?w (match ?t with Some _ => _ | None => _ end) => destruct t
  | |- ?R ?w ?w => reflexivity
  end.

Section Harmless_program.
Context (R : World → World → Prop) `{!Harmless R}.

Lemma respects_clearTimeout t : respects R (clearTimeout t).
Proof. unfold clearTimeout. repeat respects_step. Qed.

Lemma respects__send m :
  (∀ ch p k, m ≠ JoinChannelMessage ch p k) → respects R (Socket__send m).
Proof.
  intros Hm. unfold Socket__send. repeat respects_step.
  apply harmless_log. destruct m; try reflexivity. now destruct (Hm channel0 channel_param exclusive_key).
Qed.

Lemma respects_Channel_send o obj : respects R (Channel_send o obj).
Proof.
  unfold Channel_send. repeat respects_step. now apply respects__send.
Qed.

Lemma respects__onMessage o m : respects R (Channel__onMessage o m).
Proof.
  unfold Channel__onMessage, Channel_emit.
  destruct m; repeat respects_step; apply respects_clearTimeout.
Qed.

Lemma respects__heartbeat : respects R Socket__heartbeat.
Proof. apply harmless_assign. Qed.

Lemma respects_on_open : respects R on_open.
Proof.
  unfold on_open, Socket_emit. repeat respects_step. apply respects__heartbeat.
Qed.

Lemma respects_on_pong : respects R on_pong.
Proof.
  unfold on_pong. repeat respects_step;
    [apply respects_clearTimeout | apply respects__heartbeat].
Qed.

Lemma respects_on_message d : respects R (on_message d).
Proof.
  unfold on_message, JSON_parse. repeat respects_step.
  apply respects__onMessage.
Qed.

Lemma respects_on_close code reason : respects R (on_close code reason).
Proof.
  unfold on_close, Socket_emit. repeat respects_step.
  all: apply respects_clearTimeout.
Qed.

Lemma respects_shut c l i :
  is_join_request c = false → respects R l → respects R (WebSocket_shut c l i).
Proof.
  intros Hc Hl. unfold WebSocket_shut. repeat respects_step; [|exact Hl].
  transitivity (set_sockets (alter closing i) w);
    [apply harmless_sockets, closing_not_open | now apply harmless_log].
Qed.

Lemma respects_on_error_within d : respects R (on_error_within d).
Proof.
  induction d as [|d IH]; simpl; unfold WebSocket_terminate;
    repeat respects_step; apply respects_shut;
    first [reflexivity | exact IH | apply respects_ret, _].
Qed.

Lemma respects_on_error : respects R on_error.
Proof. apply respects_on_error_within. Qed.

Lemma respects_close : respects R Socket_close.
Proof.
  unfold Socket_close, WebSocket_close. repeat respects_step.
  apply respects_shut; [reflexivity | apply respects_on_error].
Qed.

Lemma respects_run_callback cb : respects R (run_callback cb).
Proof.
  unfold run_callback, WebSocket_terminate.
  destruct cb; repeat respects_step.
  apply respects_shut; [reflexivity | apply respects_on_error].
Qed.

Lemma respects_quit `{!AllowsRegistry R} o : respects R (Channel_quit o).
Proof.
  unfold Channel_quit. repeat respects_step.
  - now apply respects__send.
  - apply allows_registry.
Qed.

Lemma respects_channel `{!AllowsRegistry R} `{!AllowsCreation R} c p k :
  respects R (Socket_channel c p k).
Proof.
  unfold Socket_channel. repeat respects_step.
  - intros w. simpl. apply allows_creation.
  - apply allows_registry.
Qed.
End Harmless_program.

Lemma transport_emits_respects R `{!PreOrder R} i allowed next listener w r w' :
  transport_emits i allowed next listener w = Some (r, w') →
  respects R listener →
  (∀ rs, next = Some rs → R w (set_sockets (alter (set_readyState rs) i) w)) →
  R w w'.
Proof.
  unfold transport_emits. intros H Hl Hn.
  destruct (sockets w !! i) as [x|]; [|discriminate].
  destruct (allowed (readyState x)); [|discriminate].
  injection H as H. destruct next as [rs|].
  - transitivity (set_sockets (alter (set_readyState rs) i) w); [now apply Hn|].
    specialize (Hl (set_sockets (alter (set_readyState rs) i) w)).
    now rewrite H in Hl.
  - specialize (Hl w). now rewrite H in Hl.
Qed.

Lemma discard_snd {A} (r : Completion A * World) : snd (discard r) = snd r.
Proof. now destruct r as [[a|e] w]. Qed.

(** One turn of the event loop respects a harmless relation, provided the
    relation allows what the event itself does. *)
Lemma step_respects R `{!Harmless R} e w r w' :
  step e w = Some (r, w') →
  match e with
  | call_channel _ _ _ => AllowsRegistry R ∧ AllowsCreation R
  | call_quit _ => AllowsRegistry R
  | emit_open _ => AllowsOpening R
  | _ => True
  end →
  R w w'.
Proof.
  destruct e; simpl; intros H Hallow.
  - injection H as H. generalize (harmless_connect w). now rewrite H.
  - destruct Hallow. injection H as H.
    generalize (respects_channel R channel0 param0 exclusiveKey0 w).
    now rewrite <- discard_snd, H.
  - injection H as H. generalize (respects_close R w). now rewrite H.
  - destruct (decide (o < length (objects w))); [|discriminate].
    injection H as H. generalize (respects_Channel_send R o obj w). now rewrite H.
  - destruct (decide (o < length (objects w))); [|discriminate].
    injection H as H. generalize (respects_quit R o w). now rewrite H.
  - eapply transport_emits_respects; [apply _ | exact H | apply respects_on_open, _ |].
    intros rs [= <-]. apply allows_opening.
  - eapply transport_emits_respects; [apply _ | exact H | apply respects_on_pong, _ |].
    discriminate.
  - eapply transport_emits_respects;
      [apply _ | exact H | apply respects_on_message, _ |].
    discriminate.
  - eapply transport_emits_respects;
      [apply _ | exact H | apply respects_on_close, _ |].
    intros rs [= <-]. apply harmless_sockets. simpl. discriminate.
  - eapply transport_emits_respects;
      [apply _ | exact H | apply respects_on_error, _ |].
    intros rs [= <-]. apply harmless_sockets. simpl. discriminate.
  - destruct (pending w t) as [tm|]; [|discriminate].
    destruct (due tm <=? now w)%Z; [|discriminate].
    injection H as H.
    transitivity (set_timers (λ ts, <[t:=None]> ts) w); [apply harmless_clear|].
    generalize (respects_run_callback R (callback tm)
                  (set_timers (λ ts, <[t:=None]> ts) w)).
    now rewrite H.
  - destruct (0 <=? ms)%Z; [|discriminate].
    injection H as _ <-. apply harmless_now.
Qed.

(** *** Instances *)

Lemma join_respects R `{!PreOrder R} :
  (∀ c w, R w (add_log c w)) →
  (∀ x w, R w (set_timers (λ ts, ts ++ [x]) w)) →
  (∀ v o w, R w (set_objects (alter (set__joinTimeout v) o) w)) →
  ∀ o, respects R (Channel__join o).
Proof.
  intros Hlog Htm Hjt o. unfold Channel__join, Socket__send.
  repeat respects_step; try apply Hlog; try apply Hjt.
  intros w. unfold setTimeout. simpl.
  etransitivity; [apply Htm | apply Hlog].
Qed.

Lemma assign_respects R `{!PreOrder R} :
  (∀ t cb ms w, R w (add_log (call_setTimeout t cb ms) w)) →
  (∀ x w, R w (set_timers (λ ts, ts ++ [x]) w)) →
  (∀ v w, R w (set_this (set__pingTimeout v) w)) →
  ∀ cb ms, respects R (assign__pingTimeout cb ms).
Proof.
  intros Hlog Htm Hpt cb ms. unfold assign__pingTimeout.
  repeat respects_step; try apply Hpt.
  intros w. unfold setTimeout. simpl.
  etransitivity; [apply Htm | apply Hlog].
Qed.

Lemma connect_respects R `{!PreOrder R} :
  (∀ i a t w, R w (add_log (new_WebSocket i a t) w)) →
  (∀ x w, R w (set_sockets (λ l, l ++ [x]) w)) →
  (∀ v w, R w (set_this (set__ws v) w)) →
  respects R Socket_connect.
Proof.
  intros Hlog Hnew Hws. unfold Socket_connect.
  repeat respects_step; try apply Hws.
  all: intros w; unfold WebSocket_new; simpl;
    (etransitivity; [apply Hnew | apply Hlog]).
Qed.

Lemma evolves_intro (w w' : World) :
  url (this w') = url (this w) →
  length (sockets w) ≤ length (sockets w') →
  (objects w' = objects w ∨
   (∃ c, objects w' = objects w ++ [c]) ∨
   (∃ v o, objects w' = alter (set__joinTimeout v) o (objects w))) →
  (log w' = log w ∨ ∃ c, log w' = log w ++ [c]) →
  evolves w w'.
Proof.
  intros Hu Hs Ho Hl. repeat split; [exact Hu | exact Hs | |].
  - intros o c Hc. destruct Ho as [-> | [[c0 ->] | (v & o' & ->)]].
    + eauto.
    + exists c. split; [now apply lookup_app_l_Some | reflexivity].
    + rewrite list_lookup_alter. destruct (decide (o' = o)) as [->|].
      * rewrite Hc. simpl. eexists. split; reflexivity.
      * eauto.
  - destruct Hl as [-> | [c ->]]; [exists []; now rewrite app_nil_r | eauto].
Qed.

Ltac evolves_atom :=
  intros; apply evolves_intro; simpl;
  rewrite ?length_alter, ?length_app; simpl; eauto; try lia.

Global Instance evolves_harmless : Harmless evolves.
Proof.
  split.
  - apply _.
  - evolves_atom.
  - evolves_atom.
  - evolves_atom.
  - evolves_atom.
  - apply assign_respects; [apply _ | evolves_atom ..].
  - apply connect_respects; [apply _ | evolves_atom ..].
  - apply join_respects; [apply _ | evolves_atom ..].
Qed.

Global Instance evolves_registry : AllowsRegistry evolves.
Proof. intros f w. evolves_atom. Qed.

Global Instance evolves_creation : AllowsCreation evolves.
Proof. intros c w. evolves_atom. Qed.

Global Instance evolves_opening : AllowsOpening evolves.
Proof. intros i w. evolves_atom. Qed.

Lemma step_evolves e w r w' : step e w = Some (r, w') → evolves w w'.
Proof.
  intros H. eapply step_respects; [apply _ | exact H |].
  destruct e; first [exact I | apply _ | split; apply _].
Qed.

Lemma run_evolves es : ∀ w w', run es w = Some w' → evolves w w'.
Proof.
  induction es as [|e es IH]; simpl; intros w w' H.
  - injection H as <-. reflexivity.
  - destruct (step e w) as [[r w1]|] eqn:E; [|discriminate].
    transitivity w1; [eapply step_evolves, E | now apply IH].
Qed.

Global Instance preserves_preorder P : PreOrder (preserves P).
Proof. split; unfold preserves; [intros w; tauto | intros w1 w2 w3; tauto]. Qed.

Global Instance opens_nothing_preorder : PreOrder opens_nothing.
Proof. split; unfold opens_nothing; [intros w; tauto | intros w1 w2 w3; tauto]. Qed.

Global Instance same_registry_preorder : PreOrder same_registry.
Proof. split; unfold same_registry; [intros w | intros w1 w2 w3]; congruence. Qed.

Global Instance same_population_preorder : PreOrder same_population.
Proof. split; unfold same_population; [intros w | intros w1 w2 w3]; congruence. Qed.

Lemma Socket_connect_cases (w : World) :
  Socket_connect w = (Throw TypeError, w) ∨
  Socket_connect w = (Throw (JsError "Socket is already open"), w) ∨
  Socket_connect w = (Normal tt, connected w).
Proof.
  run_m. destruct (_ws (this w)) as [i|]; simpl; [|now right; right].
  destruct (sockets w !! i) as [x|]; simpl; [|now left].
  destruct (readyState x); simpl; auto.
Qed.

Global Instance same_registry_harmless : Harmless same_registry.
Proof.
  split; try (intros; reflexivity); try apply _.
  - apply assign_respects; [apply _ | intros; reflexivity ..].
  - apply connect_respects; [apply _ | intros; reflexivity ..].
  - apply join_respects; [apply _ | intros; reflexivity ..].
Qed.

Global Instance same_registry_creation : AllowsCreation same_registry.
Proof. intros c w. reflexivity. Qed.

Global Instance same_registry_opening : AllowsOpening same_registry.
Proof. intros i w. reflexivity. Qed.

Global Instance same_population_harmless : Harmless same_population.
Proof.
  split; try (intros; reflexivity); try apply _.
  - apply assign_respects; [apply _ | intros; reflexivity ..].
  - apply connect_respects; [apply _ | intros; reflexivity ..].
  - apply join_respects; [apply _ | try (intros; reflexivity) ..].
    intros v o w. unfold same_population. simpl. apply length_alter.
Qed.

Global Instance same_population_registry : AllowsRegistry same_population.
Proof. intros f w. reflexivity. Qed.

Global Instance same_population_opening : AllowsOpening same_population.
Proof. intros i w. reflexivity. Qed.

Lemma is_open_alter (f : WebSocket → WebSocket) (i : nat) (w : World) :
  (∀ x, readyState (f x) = OPEN → readyState x = OPEN) →
  is_open (set_sockets (alter f i) w) → is_open w.
Proof.
  intros Hf (j & x' & [Hws Hx'] & Hopen). simpl in *.
  rewrite list_lookup_alter in Hx'. destruct (decide (i = j)) as [->|].
  - destruct (sockets w !! j) as [x|] eqn:E; [|discriminate].
    injection Hx' as <-. exists j, x. repeat split; auto.
  - exists j, x'. repeat split; auto.
Qed.

Lemma connected_not_open (w : World) : ¬ is_open (connected w).
Proof.
  intros (j & x & [Hws Hx] & Hopen). simpl in *. injection Hws as <-.
  rewrite list_lookup_middle in Hx by reflexivity. injection Hx as <-.
  discriminate.
Qed.

Global Instance opens_nothing_harmless : Harmless opens_nothing.
Proof.
  split; try apply _; try (intros; exact (λ H, H)).
  - intros f i w Hf H. eapply is_open_alter; eassumption.
  - apply assign_respects; [apply _ | intros; exact (λ H, H) ..].
  - intros w. destruct (Socket_connect_cases w) as [-> | [-> | ->]];
      simpl; try reflexivity.
    intros H. now apply connected_not_open in H.
  - apply join_respects; [apply _ | intros; exact (λ H, H) ..].
Qed.

Global Instance opens_nothing_registry : AllowsRegistry opens_nothing.
Proof. intros f w. exact (λ H, H). Qed.

Global Instance opens_nothing_creation : AllowsCreation opens_nothing.
Proof. intros c w. exact (λ H, H). Qed.

Global Instance transport_bound_harmless : Harmless (preserves transport_bound).
Proof.
  split; try apply _; try (intros; exact (λ H, H)).
  - intros f i w _ (j & Hj & Hlt). exists j. simpl. now rewrite length_alter.
  - apply assign_respects; [apply _ | intros; exact (λ H, H) ..].
  - intros w. destruct (Socket_connect_cases w) as [-> | [-> | ->]];
      simpl; try reflexivity.
    intros _. exists (length (sockets w)). simpl. rewrite length_app. simpl.
    split; [reflexivity | lia].
  - apply join_respects; [apply _ | intros; exact (λ H, H) ..].
Qed.

Global Instance transport_bound_registry : AllowsRegistry (preserves transport_bound).
Proof. intros f w. exact (λ H, H). Qed.

Global Instance transport_bound_creation : AllowsCreation (preserves transport_bound).
Proof. intros c w. exact (λ H, H). Qed.

Global Instance transport_bound_opening : AllowsOpening (preserves transport_bound).
Proof.
  intros i w (j & Hj & Hlt). exists j. simpl. now rewrite length_alter.
Qed.

Lemma joins_accounted_log (c : Call) (w : World) :
  is_join_request c = false → preserves joins_accounted w (add_log c w).
Proof.
  intros Hc Hw i ch p k Hin. simpl in Hin.
  apply elem_of_app in Hin as [Hin|Hin]; [now apply (Hw i)|].
  apply list_elem_of_singleton in Hin. subst c. discriminate.
Qed.

Lemma joins_accounted_join (o : nat) :
  respects (preserves joins_accounted) (Channel__join o).
Proof.
  intros w Hw.
  destruct (Channel__join_cases w o) as [-> | (c & i & x & Hc & _ & _ & ->)];
    [exact Hw|].
  intros j ch p k Hin. simpl in Hin.
  assert (∃ o' c', objects w !! o' = Some c' ∧ identity c' = (ch, p, k))
    as (o' & c' & Hc' & Hid).
  { apply elem_of_app in Hin as [Hin|Hin].
    - apply elem_of_app in Hin as [Hin|Hin]; [now apply (Hw j)|].
      apply list_elem_of_singleton in Hin. injection Hin as -> -> -> ->.
      now exists o, c.
    - apply list_elem_of_singleton in Hin. discriminate. }
  destruct (decide (o = o')) as [->|Hne].
  - exists o', (set__joinTimeout (Some (length (timers w))) c').
    split; [|exact Hid]. simpl. now rewrite list_lookup_alter_eq, Hc'.
  - exists o', c'. split; [|exact Hid]. simpl. now rewrite list_lookup_alter_ne.
Qed.

Global Instance joins_accounted_harmless : Harmless (preserves joins_accounted).
Proof.
  split; try apply _; try (intros; exact (λ H, H)).
  - intros c w Hc. now apply joins_accounted_log.
  - apply assign_respects; [apply _ | | intros; exact (λ H, H) ..].
    intros t cb ms w. now apply joins_accounted_log.
  - apply connect_respects; [apply _ | | intros; exact (λ H, H) ..].
    intros i a t w. now apply joins_accounted_log.
  - apply joins_accounted_join.
Qed.

Global Instance joins_accounted_registry : AllowsRegistry (preserves joins_accounted).
Proof. intros f w. exact (λ H, H). Qed.

Global Instance joins_accounted_creation : AllowsCreation (preserves joins_accounted).
Proof.
  intros c w Hw i ch p k Hin. destruct (Hw i ch p k Hin) as (o & c' & Hc & Hid).
  exists o, c'. split; [|exact Hid]. simpl. now apply lookup_app_l_Some.
Qed.

Global Instance joins_accounted_opening : AllowsOpening (preserves joins_accounted).
Proof. intros i w. exact (λ H, H). Qed.

Global Instance ping_timer_bound_harmless : Harmless (preserves ping_timer_bound).
Proof.
  split; try apply _; try (intros; exact (λ H, H)).
  - intros t w Hw t' Ht'. simpl. rewrite length_insert. now apply Hw.
  - intros cb ms w _ t Ht. simpl in *. injection Ht as <-.
    rewrite length_app. simpl. lia.
  - apply connect_respects; [apply _ | intros; exact (λ H, H) ..].
  - apply join_respects; [apply _ | try (intros; exact (λ H, H)) ..].
    intros x w Hw t Ht. simpl. rewrite length_app. specialize (Hw t Ht). lia.
Qed.

Global Instance ping_timer_bound_registry : AllowsRegistry (preserves ping_timer_bound).
Proof. intros f w. exact (λ H, H). Qed.

Global Instance ping_timer_bound_creation : AllowsCreation (preserves ping_timer_bound).
Proof. intros c w. exact (λ H, H). Qed.

Global Instance ping_timer_bound_opening : AllowsOpening (preserves ping_timer_bound).
Proof. intros i w. exact (λ H, H). Qed.

(** ** Stores the program can reach *)

Lemma run_reachable es : ∀ w w', reachable w → run es w = Some w' → reachable w'.
Proof.
  induction es as [|e es IH]; simpl; intros w w' Hw H.
  - now injection H as <-.
  - destruct (step e w) as [[r w1]|] eqn:E; [|discriminate].
    eapply IH; [|exact H]. eapply reachable_step; eassumption.
Qed.

Lemma Socket_new_eq (address : string) :
  Socket_new address = connected (empty_world address).
Proof. reflexivity. Qed.

Lemma reachable_transport_bound (w : World) : reachable w → transport_bound w.
Proof.
  induction 1 as [address | w e r w' _ IH Hstep].
  - exists 0. split; [reflexivity | simpl; lia].
  - revert IH. change (preserves transport_bound w w').
    eapply step_respects; [apply _ | exact Hstep |].
    destruct e; first [exact I | apply _ | split; apply _].
Qed.

Lemma reachable_ping_timer_bound (w : World) : reachable w → ping_timer_bound w.
Proof.
  induction 1 as [address | w e r w' _ IH Hstep].
  - intros t Ht. discriminate.
  - revert IH. change (preserves ping_timer_bound w w').
    eapply step_respects; [apply _ | exact Hstep |].
    destruct e; first [exact I | apply _ | split; apply _].
Qed.

Lemma reachable_joins_accounted (w : World) : reachable w → joins_accounted w.
Proof.
  induction 1 as [address | w e r w' _ IH Hstep].
  - intros i ch p k Hin. simpl in Hin.
    apply list_elem_of_singleton in Hin. discriminate.
  - revert IH. change (preserves joins_accounted w w').
    eapply step_respects; [apply _ | exact Hstep |].
    destruct e; first [exact I | apply _ | split; apply _].
Qed.

Lemma registry_sound_frame (w w' : World) :
  registry_sound w → evolves w w' → same_registry w w' → registry_sound w'.
Proof.
  intros Hw (_ & _ & Ho & _) Hreg k o Hin. rewrite Hreg in Hin.
  destruct (Hw k o Hin) as (c & Hc & Hk).
  destruct (Ho o c Hc) as (c' & Hc' & Hid).
  exists c'. split; [exact Hc'|]. unfold identity in Hid. congruence.
Qed.

Lemma Channel_quit_open (w : World) (o i : nat) (c : Channel) (x : WebSocket) :
  objects w !! o = Some c → current_transport w i x →
  readyState x ≠ CONNECTING →
  Channel_quit o w = (Normal tt, quitted i c w).
Proof.
  intros Hc [Hi Hx] Hrs. run_m. rewrite Hc. simpl. rewrite Hi.
  now rewrite (handshaking_not w i x Hx Hrs).
Qed.

(** While the handshake of the current transport is running, [send()]
    throws out of [quit()] before the entry is deleted. *)
Lemma Channel_quit_connecting (w : World) (o i : nat) (c : Channel) (x : WebSocket) :
  objects w !! o = Some c → current_transport w i x →
  readyState x = CONNECTING →
  Channel_quit o w =
  (Throw not_open_error,
   add_log (ws_send i (QuitChannelMessage (channel c) (param c)
                                          (exclusiveKey c))) w).
Proof.
  intros Hc [Hi Hx] Hrs. run_m. rewrite Hc. simpl. rewrite Hi.
  now rewrite (handshaking_connecting w i x Hx Hrs).
Qed.

Lemma Channel_quit_cases (w : World) (o : nat) :
  snd (Channel_quit o w) = w ∨
  ∃ c i, objects w !! o = Some c ∧ _ws (this w) = Some i ∧
    (snd (Channel_quit o w) = quitted i c w ∨
     snd (Channel_quit o w) =
     add_log (ws_send i (QuitChannelMessage (channel c) (param c)
                                            (exclusiveKey c))) w).
Proof.
  destruct (objects w !! o) as [c|] eqn:Hc; [|left; run_m; now rewrite Hc].
  destruct (_ws (this w)) as [i|] eqn:Hi;
    [|left; run_m; rewrite Hc; simpl; now rewrite Hi].
  right. exists c, i. split; [reflexivity|]. split; [reflexivity|].
  run_m. rewrite Hc. simpl. rewrite Hi.
  destruct (handshaking i w); simpl; auto.
Qed.

Lemma Socket_channel_present (w : World) (ch : string) (p k : option string) (o : nat) :
  Map_get (channelKey ch (default EmptyString p)) (_channels (this w)) = Some o →
  Socket_channel ch p k w = (Normal o, w).
Proof. intros H. unfold Socket_channel, bind, gets, ret. now rewrite H. Qed.

Lemma Socket_channel_absent (w : World) (ch : string) (p k : option string) :
  Map_get (channelKey ch (default EmptyString p)) (_channels (this w)) = None →
  Socket_channel ch p k w =
  let w1 := created ch (default EmptyString p) (default EmptyString k) w in
  match Channel__join (length (objects w)) w1 with
  | (Normal _, w2) => (Normal (length (objects w)), w2)
  | (Throw e, w2) => (Throw e, w2)
  end.
Proof.
  intros H. unfold Socket_channel, bind at 1, gets. rewrite H.
  unfold bind, modify, ret. simpl.
  now destruct (Channel__join _ _) as [[[]|e] w2].
Qed.

Lemma created_registry_sound (ch p k : string) (w : World) :
  registry_sound w → registry_sound (created ch p k w).
Proof.
  intros Hw k' o Hin. simpl in Hin.
  apply Map_set_elem_of in Hin as [Hin | [-> ->]].
  - destruct (Hw k' o Hin) as (c & Hc & Hk). exists c.
    split; [|exact Hk]. simpl. now apply lookup_app_l_Some.
  - eexists. split; [simpl; now apply list_lookup_middle | reflexivity].
Qed.

Lemma step_registry_sound e w r w' :
  step e w = Some (r, w') → registry_sound w → registry_sound w'.
Proof.
  intros Hstep Hw.
  assert (same_registry w w' → registry_sound w') as Hframe.
  { apply registry_sound_frame; [exact Hw | eapply step_evolves, Hstep]. }
  destruct e;
    try (apply Hframe; eapply step_respects; [apply _ | exact Hstep |];
         first [exact I | apply _ | split; apply _]).
  - (* channel() *)
    simpl in Hstep. injection Hstep as Hstep.
    apply (f_equal snd) in Hstep. rewrite discard_snd in Hstep. simpl in Hstep.
    subst w'.
    destruct (Map_get (channelKey channel0 (default EmptyString param0))
                (_channels (this w))) as [o|] eqn:E.
    + now rewrite (Socket_channel_present w _ _ _ o E).
    + rewrite (Socket_channel_absent w _ _ _ E). simpl.
      set (w1 := created _ _ _ w).
      assert (registry_sound (snd (Channel__join (length (objects w)) w1))) as Hj.
      { apply registry_sound_frame with w1.
        - now apply created_registry_sound.
        - apply (harmless_join (R := evolves)).
        - apply (harmless_join (R := same_registry)). }
      now destruct (Channel__join _ w1) as [[[]|err] w2].
  - (* quit() *)
    simpl in Hstep. destruct (decide (o < length (objects w))); [|discriminate].
    injection Hstep as Hstep. apply (f_equal snd) in Hstep. simpl in Hstep.
    subst w'.
    destruct (Channel_quit_cases w o) as [-> | (c & i & _ & _ & [-> | ->])];
      [exact Hw | | exact Hw].
    intros k o' Hin. simpl in Hin. apply Map_delete_elem_of in Hin.
    exact (Hw k o' Hin).
Qed.

Lemma reachable_registry_sound (w : World) : reachable w → registry_sound w.
Proof.
  induction 1 as [address | w e r w' _ IH Hstep].
  - intros k o Hin. simpl in Hin. now apply elem_of_nil in Hin.
  - eapply step_registry_sound; eassumption.
Qed.

(** ** The close listener *)

Lemma pending_cleared (w : World) (ts : list (option Timer)) (t : nat) :
  timers w = <[t := None]> ts → pending w t = None.
Proof.
  intros H. unfold pending. rewrite H.
  destruct (decide (t < length ts)) as [Hlt|Hge].
  - now rewrite list_lookup_insert_eq.
  - rewrite list_insert_ge by lia.
    now rewrite lookup_ge_None_2 by lia.
Qed.

Lemma on_close_terminal (w : World) (code : Z) (reason : string) :
  ((code ≤ 1000)%Z ∨ (2000 ≤ code)%Z) →
  on_close code reason w =
  (Normal tt,
   add_log (socket_emit (ev_close code reason))
     (snd (clearTimeout (_pingTimeout (this w)) w))).
Proof.
  intros Hc. run_m.
  replace ((code <=? 1000)%Z || (code >=? 2000)%Z) with true; [reflexivity|].
  symmetry. apply orb_true_iff. destruct Hc; [left | right]; lia.
Qed.

Lemma on_close_transient (w : World) (code : Z) (reason : string) :
  (1000 < code < 2000)%Z →
  on_close code reason w =
  Socket_connect
    (add_log (socket_emit (ev_reconnect code reason))
       (snd (clearTimeout (_pingTimeout (this w)) w))).
Proof.
  intros Hc. unfold on_close, bind, gets, Socket_emit, modify. simpl.
  replace ((code <=? 1000)%Z || (code >=? 2000)%Z) with false; [reflexivity|].
  symmetry. apply orb_false_iff. split; lia.
Qed.

(** C1. A [close] event with code [c] on the current transport first clears
    the timer kept in [_pingTimeout] (the idle timer or the pong deadline).
    If [c ≤ 1000] or [c ≥ 2000] it then emits "close" with (code, reason)
    and does nothing else: no transport is created and the current one
    stays.  For every other [c] it emits "reconnect" with (code, reason)
    and calls [connect()], which returns normally with a new transport in
    [CONNECTING]. *)
Theorem close_event_classification (w : World) (i : nat) (x : WebSocket)
    (code : Z) (reason : string) :
  current_transport w i x → readyState x ≠ CLOSED →
  ∃ w', step (emit_close i code reason) w = Some (Normal tt, w') ∧
    (∀ t, _pingTimeout (this w) = Some t → pending w' t = None) ∧
    (((code ≤ 1000)%Z ∨ (2000 ≤ code)%Z) →
     log w' = log w ++ [call_clearTimeout (_pingTimeout (this w));
                        socket_emit (ev_close code reason)] ∧
     _ws (this w') = Some i ∧
     length (sockets w') = length (sockets w)) ∧
    ((1000 < code < 2000)%Z →
     log w' = log w ++ [call_clearTimeout (_pingTimeout (this w));
                        socket_emit (ev_reconnect code reason);
                        new_WebSocket (length (sockets w)) (url (this w)) 10000] ∧
     _ws (this w') = Some (length (sockets w)) ∧
     sockets w' !! length (sockets w) =
       Some {| ws_address := url (this w); handshakeTimeout := 10000;
               readyState := CONNECTING |}).
Proof.
  intros [Hi Hx] Hrs. unfold step, transport_emits. rewrite Hx.
  replace (negb (ReadyState_eqb (readyState x) CLOSED)) with true
    by (destruct (readyState x); simpl; congruence).
  destruct w as [[u ws pt chs] socks objs tms nw lg]. simpl in *. subst ws.
  destruct (decide ((code ≤ 1000)%Z ∨ (2000 ≤ code)%Z)) as [Hc|Hc].
  - rewrite (on_close_terminal _ code reason Hc).
    eexists. split; [reflexivity|]. split; [|split].
    + intros t ->. simpl. eapply pending_cleared. reflexivity.
    + intros _. simpl. rewrite <- app_assoc. simpl.
      destruct pt; simpl; rewrite length_alter; auto.
    + intros Hc'. lia.
  - assert (1000 < code < 2000)%Z as Hc' by lia.
    rewrite (on_close_transient _ code reason Hc').
    match goal with |- context [Socket_connect ?w1] =>
      assert (Socket_connect w1 = (Normal tt, connected w1)) as ->
    end.
    { run_m. destruct pt; simpl; rewrite list_lookup_alter_eq, Hx; reflexivity. }
    eexists. split; [reflexivity|]. split; [|split].
    + intros t ->. simpl. eapply pending_cleared. reflexivity.
    + intros Hc''. lia.
    + intros _. simpl.
      destruct pt; simpl; rewrite length_alter;
        rewrite <- !app_assoc; simpl; repeat split;
        apply list_lookup_middle; now rewrite length_alter.
Qed.

(** ** The open listener: joining every registered Channel *)

Lemma pending_snoc (w : World) (tm : option Timer) (t : nat) (x : Timer) :
  pending w t = Some x →
  match (timers w ++ [tm]) !! t with Some (Some y) => Some y | _ => None end = Some x.
Proof.
  unfold pending. intros H.
  destruct (timers w !! t) as [[y|]|] eqn:E; try discriminate.
  now rewrite (lookup_app_l_Some _ _ _ _ E).
Qed.

Lemma for_of_join (i : nat) (x : WebSocket) (os : list nat) :
  ∀ w, current_transport w i x →
    (∀ o, o ∈ os → is_Some (objects w !! o)) →
    ∃ w' l, for_of os Channel__join w = (Normal tt, w') ∧
      this w' = this w ∧ sockets w' = sockets w ∧ now w' = now w ∧
      length (objects w') = length (objects w) ∧
      length (timers w) ≤ length (timers w') ∧
      (∀ t tm, pending w t = Some tm → pending w' t = Some tm) ∧
      log w' = log w ++ l ∧
      (readyState x ≠ OPEN → w' = w) ∧
      (readyState x = OPEN → ∀ o c, o ∈ os → objects w !! o = Some c →
         ws_send i (JoinChannelMessage (channel c) (param c) (exclusiveKey c)) ∈ l ∧
         ∃ t, length (timers w) ≤ t ∧
              pending w' t = Some {| callback := JoinRetry o; delay := 1000;
                                     due := now w + 1000 |}).
Proof.
  induction os as [|o os IH]; intros w Hcur Hos.
  - exists w, []. simpl. rewrite app_nil_r.
    do 8 (split; [solve [auto]|]). split; [auto|].
    intros _ o c Hin. now apply elem_of_nil in Hin.
  - destruct (Hos o) as [c Hc]; [apply list_elem_of_here|].
    destruct (decide (readyState x = OPEN)) as [Hrs|Hrs].
    + (* the transport is open: a frame and a timer for [o], then the rest *)
      set (w1 := join_requested i o c w).
      assert (current_transport w1 i x) as Hcur1 by exact Hcur.
      assert (∀ o', o' ∈ os → is_Some (objects w1 !! o')) as Hos1.
      { intros o' Hin. simpl. rewrite list_lookup_alter.
        destruct (Hos o') as [c' Hc']; [now apply list_elem_of_further|].
        destruct (decide (o = o')) as [->|]; [rewrite Hc|rewrite Hc']; simpl; eauto. }
      destruct (IH w1 Hcur1 Hos1)
        as (w' & l & Hrun & Hthis & Hsock & Hnow & Hlen & Htl & Hpend & Hlog & _ & Hsent).
      exists w', ([ws_send i (JoinChannelMessage (channel c) (param c) (exclusiveKey c));
                   call_setTimeout (length (timers w)) (JoinRetry o) 1000] ++ l).
      split.
      { simpl. unfold bind at 1.
        now rewrite (Channel__join_open w o i c x Hc Hcur Hrs). }
      split; [exact Hthis|]. split; [exact Hsock|]. split; [exact Hnow|].
      split; [rewrite Hlen; simpl; apply length_alter|].
      split; [etransitivity; [|exact Htl]; simpl; rewrite length_app; simpl; lia|].
      split.
      { intros t tm Ht. apply Hpend. unfold pending. simpl. now apply pending_snoc. }
      split; [rewrite Hlog; simpl; now rewrite <- !app_assoc|].
      split; [contradiction|].
      intros _ o' c' Hin Hc'. apply elem_of_cons in Hin as [->|Hin].
      * rewrite Hc in Hc'. injection Hc' as <-. split.
        -- apply list_elem_of_here.
        -- exists (length (timers w)). split; [lia|]. apply Hpend.
           unfold pending. simpl. now rewrite list_lookup_middle.
      * assert (∃ c1, objects w1 !! o' = Some c1 ∧ identity c1 = identity c')
          as (c1 & Hc1 & Hid).
        { simpl. rewrite list_lookup_alter. destruct (decide (o = o')) as [->|].
          - rewrite Hc'. simpl. eexists. split; reflexivity.
          - eauto. }
        destruct (Hsent Hrs o' c1 Hin Hc1) as [Hf (t & Hge & Ht)].
        injection Hid as E1 E2 E3. rewrite E1, E2, E3 in Hf. split.
        -- now apply list_elem_of_further, list_elem_of_further.
        -- exists t. split; [|exact Ht].
           etransitivity; [|exact Hge]. simpl. rewrite length_app. simpl. lia.
    + (* the transport is not open: nothing happens *)
      assert (∀ o', o' ∈ os → is_Some (objects w !! o')) as Hos1.
      { intros o' Hin. now apply Hos, list_elem_of_further. }
      destruct (IH w Hcur Hos1)
        as (w' & l & Hrun & Hthis & Hsock & Hnow & Hlen & Htl & Hpend & Hlog & Hsame & _).
      exists w', l. split.
      { simpl. unfold bind at 1.
        now rewrite (Channel__join_closed w o i c x Hc Hcur Hrs). }
      do 8 (split; [solve [auto]|]). intros H. contradiction.
Qed.

Lemma registry_values_bound (w : World) :
  registry_sound w →
  ∀ o, o ∈ Map_values (_channels (this w)) → is_Some (objects w !! o).
Proof.
  intros Hw o Hin. apply Map_values_elem_of in Hin as [k Hin].
  destruct (Hw k o Hin) as (c & Hc & _). eauto.
Qed.

Lemma pending_fresh (w : World) (t : nat) : length (timers w) ≤ t → pending w t = None.
Proof. intros H. unfold pending. now rewrite lookup_ge_None_2. Qed.

Lemma emit_open_spec (w : World) (i : nat) (x : WebSocket) :
  transport_bound w → registry_sound w →
  sockets w !! i = Some x → readyState x = CONNECTING →
  ∃ w' l t,
    step (emit_open i) w = Some (Normal tt, w') ∧
    log w' = log w ++ l ++ [socket_emit ev_open; call_setTimeout t HeartbeatPing 10000] ∧
    _pingTimeout (this w') = Some t ∧
    pending w t = None ∧
    pending w' t = Some {| callback := HeartbeatPing; delay := 10000;
                           due := now w + 10000 |} ∧
    _ws (this w') = _ws (this w) ∧
    _channels (this w') = _channels (this w) ∧
    sockets w' = alter (set_readyState OPEN) i (sockets w) ∧
    (∀ t0 tm, pending w t0 = Some tm → pending w' t0 = Some tm) ∧
    (_ws (this w) = Some i →
     ∀ k o c, Map_get k (_channels (this w)) = Some o → objects w !! o = Some c →
       ws_send i (JoinChannelMessage (channel c) (param c) (exclusiveKey c)) ∈ l ∧
       ∃ t', pending w t' = None ∧
             pending w' t' = Some {| callback := JoinRetry o; delay := 1000;
                                     due := now w + 1000 |}).
Proof.
  intros (j & Hj & Hlt) Hreg Hx Hrs.
  set (w0 := set_sockets (alter (set_readyState OPEN) i) w).
  destruct (lookup_lt_is_Some_2 (sockets w0) j) as [y Hy];
    [simpl; now rewrite length_alter|].
  assert (current_transport w0 j y) as Hcur by (split; assumption).
  destruct (for_of_join j y (Map_values (_channels (this w))) w0 Hcur)
    as (wj & l & Hrun & Hthis & Hsock & Hnow & Hlen & Htl & Hpend & Hlog & _ & Hsent).
  { intros o Hin. now apply (registry_values_bound w). }
  exists (snd (Socket__heartbeat (add_log (socket_emit ev_open) wj))), l,
    (length (timers wj)).
  split.
  { unfold step, transport_emits. rewrite Hx, Hrs. simpl.
    unfold on_open, bind at 1, gets. fold w0.
    unfold bind at 1. simpl. rewrite Hrun. reflexivity. }
  simpl. rewrite Hlog, Hthis, Hsock, Hnow. simpl.
  split; [now rewrite <- !app_assoc|]. split; [reflexivity|].
  split; [apply pending_fresh; exact Htl|].
  split; [unfold pending; simpl; now rewrite list_lookup_middle|].
  split; [reflexivity|]. split; [reflexivity|]. split; [reflexivity|].
  split.
  { intros t0 tm Ht0. unfold pending. simpl. apply pending_snoc.
    apply Hpend. exact Ht0. }
  intros Hcurrent k o c Hk Hc.
  assert (j = i) as -> by congruence.
  assert (y = set_readyState OPEN x) as ->.
  { subst w0. simpl in Hy. rewrite list_lookup_alter_eq, Hx in Hy.
    now injection Hy as <-. }
  destruct (Hsent eq_refl o c) as [Hf (t' & Hge & Ht')].
  { apply Map_values_elem_of. exists k. now apply Map_get_elem_of. }
  { exact Hc. }
  split; [exact Hf|]. exists t'. split; [now apply pending_fresh|].
  unfold pending. simpl. apply pending_snoc. exact Ht'.
Qed.

(** ** The heartbeat *)

Lemma on_pong_eq (w : World) :
  on_pong w =
  Socket__heartbeat (snd (clearTimeout (_pingTimeout (this w)) w)).
Proof. reflexivity. Qed.

Lemma step_timer (w : World) (t : nat) (tm : Timer) :
  pending w t = Some tm → (due tm ≤ now w)%Z →
  step (timer_fires t) w =
  Some (run_callback (callback tm) (set_timers (λ ts, <[t := None]> ts) w)).
Proof.
  intros Hp Hdue. simpl. rewrite Hp.
  now replace (due tm <=? now w)%Z with true by (symmetry; lia).
Qed.

Lemma pending_cleared_snoc (w : World) (ts : list (option Timer))
    (x : option Timer) (t : nat) :
  t < length ts → timers w = <[t := None]> ts ++ [x] → pending w t = None.
Proof.
  intros Hlt H. unfold pending. rewrite H.
  rewrite lookup_app_l by now rewrite length_insert.
  now rewrite list_lookup_insert_eq.
Qed.

Lemma emit_pong_spec (w : World) (i : nat) (x : WebSocket) :
  ping_timer_bound w → sockets w !! i = Some x →
  receiving (readyState x) = true →
  ∃ w' t, step (emit_pong i) w = Some (Normal tt, w') ∧
    (∀ t0, _pingTimeout (this w) = Some t0 → pending w' t0 = None) ∧
    log w' = log w ++ [call_clearTimeout (_pingTimeout (this w));
                       call_setTimeout t HeartbeatPing 10000] ∧
    _pingTimeout (this w') = Some t ∧ pending w t = None ∧
    pending w' t = Some {| callback := HeartbeatPing; delay := 10000;
                           due := now w + 10000 |}.
Proof.
  intros Hb Hx Hrs. unfold step, transport_emits. rewrite Hx, Hrs, on_pong_eq.
  destruct w as [[u ws pt chs] socks objs tms nw lg]. simpl in *.
  destruct pt as [t0|]; simpl.
  - eexists _, (length (<[t0 := None]> tms)).
    split; [reflexivity|]. simpl. split.
    { intros t [= <-]. eapply pending_cleared_snoc; [|reflexivity]. now apply Hb. }
    split; [now rewrite <- app_assoc|]. split; [reflexivity|].
    split; [apply pending_fresh; simpl; now rewrite length_insert|].
    unfold pending. simpl. now rewrite list_lookup_middle.
  - eexists _, (length tms). split; [reflexivity|]. simpl.
    split; [discriminate|].
    split; [now rewrite <- app_assoc|]. split; [reflexivity|].
    split; [now apply pending_fresh|].
    unfold pending. simpl. now rewrite list_lookup_middle.
Qed.

(** X20. The heartbeat, listener by listener.  (1) The [open] listener ends by
    arming a timer of 10000 ms whose callback is the ping, and keeps it in
    [_pingTimeout].  (2) The [pong] listener clears the timer kept in
    [_pingTimeout] and arms a new 10000 ms ping timer.  (3) When a ping timer
    fires while the current transport is open, [ping()] is called on it and
    a timer of 1000 ms whose callback terminates the transport is armed and
    kept in [_pingTimeout], so that a pong arriving next clears exactly that
    deadline.  (4) When a ping timer fires while the current transport is
    still connecting, [ping()] throws out of the callback: no deadline is
    armed and [_pingTimeout] is left as it was.  (5) When a deadline timer
    fires and the current transport is not connecting, [terminate()] is
    called on it and nothing else happens.  (6) No timer fires before its
    delay has elapsed. *)
Theorem heartbeat_cycle (w : World) (i j : nat) (x y : WebSocket) :
  reachable w → sockets w !! i = Some x → current_transport w j y →
  (readyState x = CONNECTING →
   ∃ w' t, step (emit_open i) w = Some (Normal tt, w') ∧
     _pingTimeout (this w') = Some t ∧ pending w t = None ∧
     pending w' t = Some {| callback := HeartbeatPing; delay := 10000;
                            due := now w + 10000 |}) ∧
  (receiving (readyState x) = true →
   ∃ w' t, step (emit_pong i) w = Some (Normal tt, w') ∧
     (∀ t0, _pingTimeout (this w) = Some t0 → pending w' t0 = None) ∧
     log w' = log w ++ [call_clearTimeout (_pingTimeout (this w));
                        call_setTimeout t HeartbeatPing 10000] ∧
     _pingTimeout (this w') = Some t ∧ pending w t = None ∧
     pending w' t = Some {| callback := HeartbeatPing; delay := 10000;
                            due := now w + 10000 |}) ∧
  (∀ t tm, pending w t = Some tm → callback tm = HeartbeatPing →
     (due tm ≤ now w)%Z → readyState y = OPEN →
     ∃ w' t', step (timer_fires t) w = Some (Normal tt, w') ∧
       log w' = log w ++ [ws_ping j; call_setTimeout t' PongDeadline 1000] ∧
       _pingTimeout (this w') = Some t' ∧ pending w t' = None ∧
       pending w' t' = Some {| callback := PongDeadline; delay := 1000;
                               due := now w + 1000 |} ∧
       (receiving (readyState x) = true →
        ∃ w'', step (emit_pong i) w' = Some (Normal tt, w'') ∧
               pending w'' t' = None)) ∧
  (∀ t tm, pending w t = Some tm → callback tm = HeartbeatPing →
     (due tm ≤ now w)%Z → readyState y = CONNECTING →
     ∃ w', step (timer_fires t) w = Some (Throw not_open_error, w') ∧
       log w' = log w ++ [ws_ping j] ∧
       _pingTimeout (this w') = _pingTimeout (this w) ∧
       (∀ t', pending w' t' = if decide (t' = t) then None else pending w t')) ∧
  (∀ t tm, pending w t = Some tm → callback tm = PongDeadline →
     (due tm ≤ now w)%Z → readyState y ≠ CONNECTING →
     ∃ w', step (timer_fires t) w = Some (Normal tt, w') ∧
       log w' = log w ++ [ws_terminate j] ∧
       this w' = this w ∧ objects w' = objects w ∧
       (∀ t', pending w' t' = if decide (t' = t) then None else pending w t')) ∧
  (∀ t tm, pending w t = Some tm → (now w < due tm)%Z →
     step (timer_fires t) w = None).
Proof.
  intros Hw Hx [Hj Hy].
  pose proof (reachable_transport_bound w Hw) as Htb.
  pose proof (reachable_registry_sound w Hw) as Hreg.
  pose proof (reachable_ping_timer_bound w Hw) as Hpb.
  assert (∀ t t', pending (set_timers (λ ts, <[t := None]> ts) w) t' =
                  if decide (t' = t) then None else pending w t') as Hfired.
  { intros t t'. unfold pending. simpl. destruct (decide (t' = t)) as [->|Hne].
    - destruct (decide (t < length (timers w))) as [Hlt|Hge].
      + now rewrite list_lookup_insert_eq.
      + rewrite list_insert_ge by lia.
        rewrite (lookup_ge_None_2 (timers w) t) by lia. reflexivity.
    - now rewrite list_lookup_insert_ne. }
  split; [|split; [|split; [|split; [|split]]]].
  - intros Hrs.
    destruct (emit_open_spec w i x Htb Hreg Hx Hrs)
      as (w' & l & t & Hstep & _ & Hpt & Hfresh & Hp & _).
    now exists w', t.
  - intros Hrs. now apply emit_pong_spec with x.
  - intros t tm Hp Hcb Hdue Hopen.
    assert (handshaking j (set_timers (λ ts, <[t := None]> ts) w) = false) as Hh.
    { apply (handshaking_not _ j y); [exact Hy | congruence]. }
    assert (∃ w', step (timer_fires t) w = Some (Normal tt, w') ∧
              reachable w' ∧ sockets w' = sockets w ∧
              log w' = log w ++ [ws_ping j;
                call_setTimeout (length (timers w)) PongDeadline 1000] ∧
              _pingTimeout (this w') = Some (length (timers w)) ∧
              pending w' (length (timers w)) =
                Some {| callback := PongDeadline; delay := 1000;
                        due := now w + 1000 |})
      as (w' & Hstep & Hw' & Hsock & Hlog & Hpt & Hp').
    { eexists. split; [|split].
      - rewrite (step_timer w t tm Hp Hdue), Hcb. run_m. rewrite Hj, Hh.
        reflexivity.
      - eapply reachable_step; [exact Hw|].
        rewrite (step_timer w t tm Hp Hdue), Hcb. run_m. rewrite Hj, Hh.
        reflexivity.
      - simpl. rewrite length_insert. split; [reflexivity|].
        split; [now rewrite <- app_assoc|]. split; [reflexivity|].
        unfold pending. simpl. rewrite list_lookup_middle; [reflexivity|].
        now rewrite length_insert. }
    exists w', (length (timers w)).
    split; [exact Hstep|]. split; [exact Hlog|].
    split; [exact Hpt|]. split; [now apply pending_fresh|].
    split; [exact Hp'|]. intros Hrs.
    destruct (emit_pong_spec w' i x) as (w'' & t'' & Hs'' & Hclear & _);
      [now apply reachable_ping_timer_bound | now rewrite Hsock | exact Hrs |].
    exists w''. split; [exact Hs''|]. now apply Hclear.
  - intros t tm Hp Hcb Hdue Hconn.
    assert (handshaking j (set_timers (λ ts, <[t := None]> ts) w) = true) as Hh.
    { now apply (handshaking_connecting _ j y). }
    rewrite (step_timer w t tm Hp Hdue), Hcb. eexists. split.
    + run_m. rewrite Hj, Hh. reflexivity.
    + simpl. split; [reflexivity|]. split; [reflexivity|]. apply Hfired.
  - intros t tm Hp Hcb Hdue Hrs.
    rewrite (step_timer w t tm Hp Hdue), Hcb. eexists. split.
    + unfold run_callback. rewrite (this__ws_bind _ j) by exact Hj.
      unfold WebSocket_terminate. rewrite WebSocket_shut_settled; [reflexivity|].
      now apply (handshaking_not _ j y).
    + simpl. split; [reflexivity|]. split; [reflexivity|].
      split; [reflexivity|]. apply Hfired.
  - intros t tm Hp Hlt. simpl. rewrite Hp.
    now replace (due tm <=? now w)%Z with false by (symmetry; lia).
Qed.

(** C2. A pong that arrives before the deadline does not always cancel
    it.  After [two_heartbeats] two ping timers are pending.  Both fire,
    both pings are answered within 200 ms, and each pong clears the timer
    that [_pingTimeout] holds at that moment: the deadline of the second
    ping, then the ping timer the first pong armed.  The deadline of the
    first ping (timer 2, due at 11000) is cleared by neither; it is still
    pending at 10350, and when it fires [terminate()] is called on the open
    transport. *)
Theorem pong_leaves_older_deadline :
  ∃ w1 w2 w3 w4,
    run two_heartbeats (Socket_new endpoint) = Some w1 ∧
    run both_pings w1 = Some w2 ∧
    log w2 = log w1 ++ [ws_ping 1; call_setTimeout 2 PongDeadline 1000;
                        ws_ping 1; call_setTimeout 3 PongDeadline 1000] ∧
    run both_pongs w2 = Some w3 ∧
    log w3 = log w2 ++ [call_clearTimeout (Some 3);
                        call_setTimeout 4 HeartbeatPing 10000;
                        call_clearTimeout (Some 4);
                        call_setTimeout 5 HeartbeatPing 10000] ∧
    now w3 = 10350%Z ∧
    pending w3 2 = Some {| callback := PongDeadline; delay := 1000;
                           due := 11000 |} ∧
    current_transport w3 1 (transport0 OPEN) ∧
    run [elapse 650; timer_fires 2] w3 = Some w4 ∧
    log w4 = log w3 ++ [ws_terminate 1] ∧
    current_transport w4 1 (transport0 CLOSING).
Proof.
  destruct (run two_heartbeats (Socket_new endpoint)) as [w1|] eqn:H1;
    [|vm_compute in H1; discriminate].
  destruct (run both_pings w1) as [w2|] eqn:H2;
    [|vm_compute in H1; injection H1 as <-; vm_compute in H2; discriminate].
  destruct (run both_pongs w2) as [w3|] eqn:H3;
    [|vm_compute in H1; injection H1 as <-; vm_compute in H2;
      injection H2 as <-; vm_compute in H3; discriminate].
  destruct (run [elapse 650; timer_fires 2] w3) as [w4|] eqn:H4;
    [|vm_compute in H1; injection H1 as <-; vm_compute in H2;
      injection H2 as <-; vm_compute in H3; injection H3 as <-;
      vm_compute in H4; discriminate].
  exists w1, w2, w3, w4.
  vm_compute in H1. injection H1 as <-.
  vm_compute in H2. injection H2 as <-.
  vm_compute in H3. injection H3 as <-.
  vm_compute in H4. injection H4 as <-.
  repeat split.
Qed.

(** ** The join handshake *)

Lemma retry_rounds_S (n t : nat) (w : World) :
  retry_rounds (S n) t w =
  match run [elapse 1000; timer_fires t] w with
  | Some w' => retry_rounds n (length (timers w)) w'
  | None => None
  end.
Proof. reflexivity. Qed.

Lemma retry_rounds_spec (i o : nat) (x : WebSocket) (ch p k : string) (n : nat) :
  ∀ w t c,
    current_transport w i x → readyState x = OPEN →
    objects w !! o = Some c → identity c = (ch, p, k) →
    S t = length (timers w) →
    pending w t = Some {| callback := JoinRetry o; delay := 1000;
                          due := now w + 1000 |} →
    ∃ wn, retry_rounds n t w = Some wn ∧
      log wn = log w ++ retry_log i o ch p k (S t) n ∧
      pending wn (t + n) =
        Some {| callback := JoinRetry o; delay := 1000;
                due := now w + 1000 * Z.of_nat n + 1000 |}.
Proof.
  induction n as [|n IH]; intros w t c Hcur Hrs Hc Hid Hlen Hp.
  - exists w. simpl. rewrite app_nil_r, Nat.add_0_r, Z.add_0_r.
    repeat split. exact Hp.
  - set (w1 := set_now (λ n, (n + 1000)%Z) w).
    set (w2 := set_timers (λ ts, <[t := None]> ts) w1).
    set (w3 := join_requested i o c w2).
    assert (run [elapse 1000; timer_fires t] w = Some w3) as Hrun.
    { simpl. fold w1.
      assert (pending w1 t = pending w t) as -> by reflexivity. rewrite Hp.
      simpl. replace (now w + 1000 <=? now w + 1000)%Z with true
        by (symmetry; lia).
      fold w2. now rewrite (Channel__join_open w2 o i c x Hc Hcur Hrs). }
    destruct (IH w3 (S t) (set__joinTimeout (Some (length (timers w2))) c))
      as (wn & Hn & Hlog & Hpn).
    + exact Hcur.
    + exact Hrs.
    + simpl. now rewrite list_lookup_alter_eq, Hc.
    + exact Hid.
    + simpl. rewrite length_app, length_insert. simpl. lia.
    + unfold pending. simpl. rewrite list_lookup_middle; [reflexivity|].
      now rewrite length_insert.
    + exists wn. split; [|split].
      * rewrite retry_rounds_S, Hrun, <- Hlen. exact Hn.
      * rewrite Hlog. simpl. rewrite length_insert, <- Hlen.
        injection Hid as -> -> ->. now rewrite <- !app_assoc.
      * replace (t + S n) with (S t + n) by lia. rewrite Hpn. simpl.
        do 2 f_equal. lia.
Qed.

(** C3. [_join()] of a Channel.  (1) If the current transport is not open
    it returns with the store unchanged: no frame, no timer.  (2) If it is
    open it sends one "join_channel" frame with the Channel's (channel,
    param, exclusiveKey) and arms a timer of 1000 ms that it keeps in
    [_joinTimeout] and whose callback is [_join()] of the same Channel;
    when the timer fires one time unit later, and again and again for any
    number [n] of rounds, each round sends the same frame and arms the next
    timer with the same 1000 ms; a "join_result" for the Channel clears the
    armed timer.  (3) The [open] listener of the current transport returns
    normally having sent the "join_channel" frame and armed the retry timer
    of every Channel of the registry. *)
Theorem join_handshake (w : World) (o i : nat) (c : Channel) (x : WebSocket) :
  reachable w → objects w !! o = Some c → current_transport w i x →
  (readyState x ≠ OPEN → Channel__join o w = (Normal tt, w)) ∧
  (readyState x = OPEN →
   ∃ w' t, Channel__join o w = (Normal tt, w') ∧
     log w' = log w ++
       [ws_send i (JoinChannelMessage (channel c) (param c) (exclusiveKey c));
        call_setTimeout t (JoinRetry o) 1000] ∧
     pending w t = None ∧
     pending w' t = Some {| callback := JoinRetry o; delay := 1000;
                            due := now w + 1000 |} ∧
     objects w' !! o = Some (set__joinTimeout (Some t) c) ∧
     run_callback (JoinRetry o) = Channel__join o ∧
     (∀ n, ∃ wn, retry_rounds n t w' = Some wn ∧
        log wn = log w' ++
          retry_log i o (channel c) (param c) (exclusiveKey c) (S t) n ∧
        pending wn (t + n) =
          Some {| callback := JoinRetry o; delay := 1000;
                  due := now w' + 1000 * Z.of_nat n + 1000 |}) ∧
     (∀ ch p num welcome, ∃ w'',
        Channel__onMessage o (JoinResultMessage ch p num welcome) w'
          = (Normal tt, w'') ∧
        pending w'' t = None)) ∧
  (readyState x = CONNECTING →
   ∃ w' l, step (emit_open i) w = Some (Normal tt, w') ∧
     (∃ l', log w' = log w ++ l ++ l') ∧
     ∀ key o' c', Map_get key (_channels (this w)) = Some o' →
       objects w !! o' = Some c' →
       ws_send i (JoinChannelMessage (channel c') (param c') (exclusiveKey c')) ∈ l ∧
       ∃ t', pending w t' = None ∧
             pending w' t' = Some {| callback := JoinRetry o'; delay := 1000;
                                     due := now w + 1000 |}).
Proof.
  intros Hw Hc Hcur. split; [|split].
  - intros Hrs. now apply Channel__join_closed with i c x.
  - intros Hrs. exists (join_requested i o c w), (length (timers w)).
    split; [now apply Channel__join_open with x|].
    split; [simpl; now rewrite <- app_assoc|].
    split; [now apply pending_fresh|].
    split; [unfold pending; simpl; now rewrite list_lookup_middle|].
    split; [simpl; now rewrite list_lookup_alter_eq, Hc|].
    split; [reflexivity|]. split.
    + intros n.
      apply retry_rounds_spec
        with (x := x) (c := set__joinTimeout (Some (length (timers w))) c).
      * exact Hcur.
      * exact Hrs.
      * simpl. now rewrite list_lookup_alter_eq, Hc.
      * reflexivity.
      * simpl. rewrite length_app. simpl. lia.
      * unfold pending. simpl. now rewrite list_lookup_middle.
    + intros ch p num welcome. eexists. split.
      * run_m. rewrite list_lookup_alter_eq, Hc. reflexivity.
      * simpl. unfold pending. simpl.
        rewrite list_lookup_insert_eq; [reflexivity|].
        rewrite length_app. simpl. lia.
  - intros Hrs. destruct Hcur as [Hi Hx].
    destruct (emit_open_spec w i x (reachable_transport_bound w Hw)
                (reachable_registry_sound w Hw) Hx Hrs)
      as (w' & l & t & Hstep & Hlog & _ & _ & _ & _ & _ & _ & _ & Hjoin).
    exists w', l. split; [exact Hstep|]. split; [eauto|].
    intros key o' c' Hk Hc'. now apply (Hjoin Hi key).
Qed.

(** ** Routing an inbound frame *)

(** C5. A frame whose (channel, param) is the key of no Channel of the
    registry is dropped: the [message] listener returns normally and the
    store, the log of emitted notifications and sent frames included, is
    the one it started in. *)
Theorem unmatched_frame_dropped (w : World) (i : nat) (x : WebSocket)
    (m : IncomingMessage) :
  sockets w !! i = Some x → receiving (readyState x) = true →
  Map_get (channelKey (msg__channel m) (msg__channel_param m))
          (_channels (this w)) = None →
  on_message (Text m) w = (Normal tt, w) ∧
  step (emit_message i (Text m)) w = Some (Normal tt, w).
Proof.
  intros Hx Hrs Hget.
  assert (on_message (Text m) w = (Normal tt, w)) as Hon.
  { unfold on_message, JSON_parse, bind, ret, gets. now rewrite Hget. }
  split; [exact Hon|].
  unfold step, transport_emits. now rewrite Hx, Hrs, Hon.
Qed.

(** ** Leaving a Channel *)

Lemma Map_delete_elem_of_ne {V} (m : JsMap V) (k k' : string) (v : V) :
  (k', v) ∈ Map_delete k m → k' ≠ k.
Proof.
  induction m as [|[k0 v0] m IH]; simpl.
  { intros H. now apply elem_of_nil in H. }
  destruct (String.eqb k k0) eqn:E; [exact IH|].
  intros H. apply elem_of_cons in H as [H|H]; [|now apply IH].
  injection H as -> ->. apply String.eqb_neq in E. congruence.
Qed.

(** C9. While the current transport is open, [quit()] of a Channel returns
    after it has sent one "disconnect_channel" frame with
    the Channel's (channel, param, exclusiveKey) and deleted the entry of
    the registry under its key, after which the Channel is no value of the
    registry; every other key keeps its entry, and when the Channel was the
    one registered under its key the registry afterwards is the registry
    before without that Channel.  The timer table is untouched, so a retry
    timer of the Channel that was pending is still pending; the Channels,
    the transports, the clock and the other fields of the Socket are
    unchanged. *)
Theorem quit_effect (w : World) (o : nat) (c : Channel) :
  reachable w → objects w !! o = Some c → is_open w →
  ∃ i w', _ws (this w) = Some i ∧ Channel_quit o w = (Normal tt, w') ∧
    log w' = log w ++ [ws_send i (QuitChannelMessage (channel c) (param c)
                                                     (exclusiveKey c))] ∧
    _channels (this w') =
      Map_delete (channelKey (channel c) (param c)) (_channels (this w)) ∧
    Map_get (channelKey (channel c) (param c)) (_channels (this w')) = None ∧
    (o ∉ Map_values (_channels (this w'))) ∧
    (∀ key, key ≠ channelKey (channel c) (param c) →
            Map_get key (_channels (this w')) = Map_get key (_channels (this w))) ∧
    (Map_get (channelKey (channel c) (param c)) (_channels (this w)) = Some o →
     ∀ key o', Map_get key (_channels (this w')) = Some o' ↔
               Map_get key (_channels (this w)) = Some o' ∧ o' ≠ o) ∧
    timers w' = timers w ∧
    (∀ t, pending w' t = pending w t) ∧
    objects w' = objects w ∧ sockets w' = sockets w ∧ now w' = now w ∧
    url (this w') = url (this w) ∧ _ws (this w') = _ws (this w) ∧
    _pingTimeout (this w') = _pingTimeout (this w).
Proof.
  intros Hw Hc (i & x & Hcur & Hrs).
  exists i, (quitted i c w). split; [apply Hcur|]. split.
  { apply (Channel_quit_open w o i c x Hc Hcur). congruence. }
  simpl. split; [reflexivity|]. split; [reflexivity|].
  split; [apply Map_get_delete_eq|]. split.
  { intros Hin. apply Map_values_elem_of in Hin as [k' Hin].
    pose proof (Map_delete_elem_of_ne _ _ _ _ Hin) as Hne.
    apply Map_delete_elem_of in Hin.
    destruct (reachable_registry_sound w Hw k' o Hin) as (c' & Hc' & Hk).
    congruence. }
  split; [intros key Hne; apply Map_get_delete_ne; congruence|].
  split; [|repeat split].
  intros Hreg key o'.
  destruct (decide (channelKey (channel c) (param c) = key)) as [<-|Hne].
  - rewrite Map_get_delete_eq, Hreg. split; [discriminate|].
    intros [[= <-] Hne]. contradiction.
  - rewrite Map_get_delete_ne by exact Hne. split; [|tauto].
    intros Hget. split; [exact Hget|]. intros ->.
    destruct (reachable_registry_sound w Hw key o (Map_get_elem_of _ _ _ Hget))
      as (c' & Hc' & Hk).
    congruence.
Qed.

(** ** Requesting a Channel *)

Lemma Channel__join_normal (w : World) (o : nat) :
  transport_bound w → is_Some (objects w !! o) →
  ∃ w', Channel__join o w = (Normal tt, w').
Proof.
  intros (i & Hi & Hlt) [c Hc].
  destruct (lookup_lt_is_Some_2 (sockets w) i Hlt) as [x Hx].
  destruct (decide (readyState x = OPEN)) as [Hrs|Hrs].
  - eexists. exact (Channel__join_open w o i c x Hc (conj Hi Hx) Hrs).
  - exists w. exact (Channel__join_closed w o i c x Hc (conj Hi Hx) Hrs).
Qed.

Lemma Socket_channel_spec (w : World) (ch : string) (p k : option string) :
  transport_bound w →
  ∃ o w1, Socket_channel ch p k w = (Normal o, w1) ∧
    Map_get (channelKey ch (default EmptyString p)) (_channels (this w1)) = Some o ∧
    match Map_get (channelKey ch (default EmptyString p)) (_channels (this w)) with
    | Some o' => o = o' ∧ w1 = w
    | None =>
      o = length (objects w) ∧
      w1 = snd (Channel__join o
                  (created ch (default EmptyString p) (default EmptyString k) w))
    end.
Proof.
  intros Htb.
  destruct (Map_get (channelKey ch (default EmptyString p)) (_channels (this w)))
    as [o|] eqn:E.
  - exists o, w. now rewrite (Socket_channel_present w ch p k o E).
  - rewrite (Socket_channel_absent w ch p k E). simpl.
    set (w0 := created ch (default EmptyString p) (default EmptyString k) w).
    destruct (Channel__join_normal w0 (length (objects w))) as [w1 Hj].
    + exact Htb.
    + simpl. rewrite list_lookup_middle; eauto.
    + exists (length (objects w)), w1. rewrite Hj. split; [reflexivity|].
      split; [|split; reflexivity].
      pose proof (harmless_join (R := same_registry) (length (objects w)) w0) as Hr.
      rewrite Hj in Hr. simpl in Hr. unfold same_registry in Hr. rewrite Hr.
      simpl. apply Map_get_set_eq.
Qed.


(** C10. Once [channel(name, param, k1)] has created a Channel, and for as
    long as that Channel is the one registered under its key, a later
    [channel(name, param, k2)] returns it and changes nothing in the store,
    so [k2] is kept nowhere; the Channel still carries [k1], and the
    "join_channel" and "disconnect_channel" frames it sends carry [k1]. *)
Theorem exclusive_key_of_first_request (w w1 w' : World) (ch : string)
    (p k1 k2 : option string) (o : nat) (es : list Event) :
  reachable w →
  Map_get (channelKey ch (default EmptyString p)) (_channels (this w)) = None →
  Socket_channel ch p k1 w = (Normal o, w1) →
  run es w1 = Some w' →
  Map_get (channelKey ch (default EmptyString p)) (_channels (this w')) = Some o →
  Socket_channel ch p k2 w' = (Normal o, w') ∧
  ∃ c i, objects w' !! o = Some c ∧ _ws (this w') = Some i ∧
    identity c = (ch, default EmptyString p, default EmptyString k1) ∧
    log (snd (Channel_quit o w')) =
      log w' ++ [ws_send i (QuitChannelMessage ch (default EmptyString p)
                                               (default EmptyString k1))] ∧
    (is_open w' →
     ∃ t, log (snd (Channel__join o w')) =
       log w' ++ [ws_send i (JoinChannelMessage ch (default EmptyString p)
                                                (default EmptyString k1));
                  call_setTimeout t (JoinRetry o) 1000]).
Proof.
  intros Hw Habsent Hcall Hrun Hget.
  split; [now apply Socket_channel_present|].
  assert (reachable w1) as Hw1.
  { apply (reachable_step w (call_channel ch p k1) (Normal tt) w1 Hw).
    simpl. now rewrite Hcall. }
  assert (reachable w') as Hw' by now apply (run_reachable es w1).
  destruct (Socket_channel_spec w ch p k1 (reachable_transport_bound w Hw))
    as (o0 & w0 & Hcall0 & _ & Hcase).
  rewrite Hcall in Hcall0. injection Hcall0 as <- <-.
  rewrite Habsent in Hcase. destruct Hcase as [Ho Hw1eq].
  set (wc := created ch (default EmptyString p) (default EmptyString k1) w) in *.
  assert (evolves wc w') as (_ & _ & Hobj & _).
  { transitivity w1; [|now apply (run_evolves es)].
    rewrite Hw1eq. apply (harmless_join (R := evolves)). }
  destruct (Hobj o {| channel := ch; param := default EmptyString p;
                      exclusiveKey := default EmptyString k1;
                      _joinTimeout := None |}) as (c & Hc & Hid).
  { subst wc. simpl. now rewrite Ho, list_lookup_middle. }
  destruct (reachable_transport_bound w' Hw') as (i & Hi & Hlt).
  exists c, i. split; [exact Hc|]. split; [exact Hi|]. split; [exact Hid|].
  injection Hid as Hch Hp Hk. split.
  - run_m. rewrite Hc. simpl. rewrite Hi. simpl. rewrite Hch, Hp, Hk.
    now destruct (handshaking i w').
  - intros (j & x & [Hj Hx] & Hrs). assert (j = i) as -> by congruence.
    exists (length (timers w')).
    rewrite (Channel__join_open w' o i c x Hc (conj Hi Hx) Hrs). simpl.
    now rewrite Hch, Hp, Hk, <- app_assoc.
Qed.

(** ** The registry and the join requests *)

Lemma join_sent_mono (w w' : World) (ch p k : string) :
  evolves w w' → join_sent w ch p k → join_sent w' ch p k.
Proof.
  intros (_ & _ & _ & [l Hl]) [i Hin]. exists i. rewrite Hl.
  apply elem_of_app. now left.
Qed.

Lemma quit_sent_mono (w w' : World) (ch p : string) :
  evolves w w' → quit_sent w ch p → quit_sent w' ch p.
Proof.
  intros (_ & _ & _ & [l Hl]) (i & k & Hin). exists i, k. rewrite Hl.
  apply elem_of_app. now left.
Qed.

Lemma registered_back (w w' : World) (key : string) (o : nat) (c' : Channel) :
  registry_sound w → evolves w w' →
  Map_get key (_channels (this w)) = Some o → objects w' !! o = Some c' →
  ∃ c, objects w !! o = Some c ∧ identity c = identity c'.
Proof.
  intros Hreg (_ & _ & Hobj & _) Hget Hc'.
  destruct (Hreg key o (Map_get_elem_of _ _ _ Hget)) as (c & Hc & _).
  destruct (Hobj o c Hc) as (c'' & Hc'' & Hid).
  exists c. split; [exact Hc | congruence].
Qed.

Lemma joined_when_open_frame (w w' : World) :
  registry_sound w → joined_when_open w →
  evolves w w' → same_registry w w' → opens_nothing w w' →
  joined_when_open w'.
Proof.
  intros Hreg Hinv Hev Hsame Hopen Hopen' ch p k (o & c' & Hget & Hc' & Hid).
  rewrite Hsame in Hget.
  destruct (registered_back w w' _ o c' Hreg Hev Hget Hc') as (c & Hc & Hidc).
  apply (join_sent_mono w w'); [exact Hev|].
  apply Hinv; [now apply Hopen|]. exists o, c. split; [exact Hget|].
  split; [exact Hc | congruence].
Qed.

Lemma step_enabled_open (w : World) (i : nat) (r : Completion unit) (w' : World) :
  step (emit_open i) w = Some (r, w') →
  ∃ x, sockets w !! i = Some x ∧ readyState x = CONNECTING.
Proof.
  simpl. unfold transport_emits. destruct (sockets w !! i) as [x|]; [|discriminate].
  destruct (ReadyState_eqb (readyState x) CONNECTING) eqn:E; [|discriminate].
  intros _. exists x. split; [reflexivity | now apply ReadyState_eqb_eq].
Qed.

Lemma step_joined_when_open e w r w' :
  reachable w → joined_when_open w → step e w = Some (r, w') →
  joined_when_open w'.
Proof.
  intros Hw Hinv Hstep.
  pose proof (reachable_registry_sound w Hw) as Hreg.
  pose proof (reachable_transport_bound w Hw) as Htb.
  pose proof (step_evolves e w r w' Hstep) as Hev.
  destruct e;
    try (apply (joined_when_open_frame w w' Hreg Hinv Hev);
         (eapply step_respects; [apply _ | exact Hstep |];
          first [exact I | apply _ | split; apply _])).
  - (* channel() *)
    simpl in Hstep. injection Hstep as Hstep.
    apply (f_equal snd) in Hstep. rewrite discard_snd in Hstep. simpl in Hstep.
    destruct (Socket_channel_spec w channel0 param0 exclusiveKey0 Htb)
      as (o & w1 & Hcall & _ & Hcase).
    rewrite Hcall in Hstep. simpl in Hstep. subst w1.
    destruct (Map_get (channelKey channel0 (default EmptyString param0))
                (_channels (this w))) as [o'|] eqn:Habsent.
    { destruct Hcase as [_ ->]. exact Hinv. }
    destruct Hcase as [-> Hw'].
    set (dp := default EmptyString param0) in *.
    set (dk := default EmptyString exclusiveKey0) in *.
    set (wc := created channel0 dp dk w) in *.
    set (c0 := {| channel := channel0; param := dp; exclusiveKey := dk;
                  _joinTimeout := None |}).
    assert (objects wc !! length (objects w) = Some c0) as Hc0.
    { simpl. now rewrite list_lookup_middle. }
    assert (is_open w' → is_open wc) as Hopen.
    { rewrite Hw'. apply (harmless_join (R := opens_nothing)). }
    assert (_channels (this w') = _channels (this wc)) as Hsame.
    { rewrite Hw'. apply (harmless_join (R := same_registry)). }
    assert (evolves wc w') as Hevc.
    { rewrite Hw'. apply (harmless_join (R := evolves)). }
    intros Hopen' ch p k (o' & c' & Hget & Hc' & Hid).
    apply Hopen in Hopen'. rewrite Hsame in Hget. simpl in Hget.
    destruct (decide (channelKey ch p = channelKey channel0 dp)) as [Hk|Hk].
    + rewrite Hk, Map_get_set_eq in Hget. injection Hget as <-.
      destruct Hevc as (_ & _ & Hobj & _).
      destruct (Hobj _ _ Hc0) as (c'' & Hc'' & Hid'').
      assert (c'' = c') as -> by congruence.
      rewrite Hid in Hid''. injection Hid'' as -> -> ->.
      destruct Hopen' as (i & x & Hcur & Hrs).
      rewrite (Channel__join_open wc _ i c0 x Hc0 Hcur Hrs) in Hw'.
      exists i. rewrite Hw'. simpl. rewrite <- app_assoc.
      apply elem_of_app. right. apply list_elem_of_here.
    + rewrite Map_get_set_ne in Hget by congruence.
      destruct (registered_back w w' _ o' c' Hreg Hev Hget Hc') as (c & Hc & Hidc).
      apply (join_sent_mono w w'); [exact Hev|].
      apply Hinv; [exact Hopen'|]. exists o', c. split; [exact Hget|].
      split; [exact Hc | congruence].
  - (* quit() *)
    simpl in Hstep. destruct (decide (o < length (objects w))); [|discriminate].
    injection Hstep as Hstep. apply (f_equal snd) in Hstep. simpl in Hstep.
    destruct (Channel_quit_cases w o) as [Hq | (c & i & Hc & Hi & [Hq | Hq])];
      rewrite Hq in Hstep; simpl in Hstep; subst w'; [exact Hinv | |].
    2:{ intros Hopen' ch p k Hregd.
        destruct (Hinv Hopen' ch p k Hregd) as [j Hj].
        exists j. simpl. apply elem_of_app. now left. }
    intros Hopen' ch p k (o' & c' & Hget & Hc' & Hid). simpl in *.
    destruct (decide (channelKey (channel c) (param c) = channelKey ch p)) as [Hk|Hk].
    { rewrite <- Hk, Map_get_delete_eq in Hget. discriminate. }
    rewrite Map_get_delete_ne in Hget by exact Hk.
    destruct (Hinv Hopen' ch p k) as [j Hj]; [now exists o', c'|].
    exists j. simpl. apply elem_of_app. now left.
  - (* the open event *)
    destruct (step_enabled_open w ws r w' Hstep) as (x & Hx & Hrs).
    destruct (emit_open_spec w ws x Htb Hreg Hx Hrs)
      as (w'' & l & t & Hstep' & Hlog & _ & _ & _ & Hws & Hch & Hsock & _ & Hjoin).
    rewrite Hstep in Hstep'. injection Hstep' as _ <-.
    intros (j & y & [Hj Hy] & Hopen) ch p k (o' & c' & Hget & Hc' & Hid).
    rewrite Hch in Hget. rewrite Hws in Hj.
    destruct (registered_back w w' _ o' c' Hreg Hev Hget Hc') as (c & Hc & Hidc).
    rewrite Hid in Hidc. injection Hidc as Hch' Hp' Hk'.
    destruct (decide (j = ws)) as [->|Hne].
    + destruct (Hjoin Hj _ o' c Hget Hc) as [Hin _].
      exists ws. rewrite Hlog. rewrite Hch', Hp', Hk' in Hin.
      apply elem_of_app. right. apply elem_of_app. now left.
    + rewrite Hsock, list_lookup_alter_ne in Hy by congruence.
      apply (join_sent_mono w w'); [exact Hev|].
      apply Hinv; [now exists j, y|]. exists o', c.
      split; [exact Hget|]. split; [exact Hc|]. unfold identity. congruence.
Qed.

Lemma reachable_joined_when_open (w : World) : reachable w → joined_when_open w.
Proof.
  induction 1 as [address | w e r w' Hw IH Hstep].
  - intros (i & x & [Hi Hx] & Hrs). simpl in *.
    injection Hi as <-. simpl in Hx. injection Hx as <-. discriminate.
  - eapply step_joined_when_open; eassumption.
Qed.

Lemma registered_or_quit_frame (w w' : World) :
  registered_or_quit w →
  evolves w w' → same_registry w w' → same_population w w' →
  registered_or_quit w'.
Proof.
  intros Hinv Hev Hsame Hpop o c' Hc'.
  assert (o < length (objects w)) as Hlt.
  { rewrite <- Hpop. now apply lookup_lt_Some in Hc'. }
  destruct (lookup_lt_is_Some_2 _ _ Hlt) as [c Hc].
  destruct Hev as (Hu & Hs & Hobj & Hl).
  destruct (Hobj o c Hc) as (c'' & Hc'' & Hid).
  assert (c'' = c') as -> by congruence. injection Hid as Hch Hp _.
  rewrite Hch, Hp, Hsame.
  destruct (Hinv o c Hc) as [H|H]; [now left | right].
  now apply (quit_sent_mono w w').
Qed.

Lemma step_registered_or_quit e w r w' :
  reachable w → registered_or_quit w → step e w = Some (r, w') →
  registered_or_quit w'.
Proof.
  intros Hw Hinv Hstep.
  pose proof (reachable_transport_bound w Hw) as Htb.
  pose proof (step_evolves e w r w' Hstep) as Hev.
  destruct e;
    try (apply (registered_or_quit_frame w w' Hinv Hev);
         (eapply step_respects; [apply _ | exact Hstep |];
          first [exact I | apply _ | split; apply _])).
  - (* channel() *)
    simpl in Hstep. injection Hstep as Hstep.
    apply (f_equal snd) in Hstep. rewrite discard_snd in Hstep. simpl in Hstep.
    destruct (Socket_channel_spec w channel0 param0 exclusiveKey0 Htb)
      as (o & w1 & Hcall & _ & Hcase).
    rewrite Hcall in Hstep. simpl in Hstep. subst w1.
    destruct (Map_get (channelKey channel0 (default EmptyString param0))
                (_channels (this w))) as [o'|] eqn:Habsent.
    { destruct Hcase as [_ ->]. exact Hinv. }
    destruct Hcase as [-> Hw'].
    set (dp := default EmptyString param0) in *.
    set (dk := default EmptyString exclusiveKey0) in *.
    set (wc := created channel0 dp dk w) in *.
    assert (registered_or_quit wc) as Hc.
    { intros o c Ho. simpl in Ho. apply lookup_snoc_Some in Ho as [[_ Ho]|[_ <-]].
      - destruct (Hinv o c Ho) as [[o' Hget]|Hq]; [left | now right]. simpl.
        destruct (decide (channelKey channel0 dp = channelKey (channel c) (param c)))
          as [<-|Hne].
        + rewrite Map_get_set_eq. eauto.
        + rewrite Map_get_set_ne by exact Hne. eauto.
      - left. simpl. rewrite Map_get_set_eq. eauto. }
    rewrite Hw'. apply (registered_or_quit_frame wc); [exact Hc | ..].
    + apply (harmless_join (R := evolves)).
    + apply (harmless_join (R := same_registry)).
    + apply (harmless_join (R := same_population)).
  - (* quit() *)
    simpl in Hstep. destruct (decide (o < length (objects w))); [|discriminate].
    injection Hstep as Hstep. apply (f_equal snd) in Hstep. simpl in Hstep.
    destruct (Channel_quit_cases w o) as [Hq | (c & i & Hc & Hi & [Hq | Hq])];
      rewrite Hq in Hstep; simpl in Hstep; subst w'; [exact Hinv | |].
    2:{ intros o' c' Hc'.
        destruct (Hinv o' c' Hc') as [H | (j & k & H)]; [now left | right].
        exists j, k. simpl. apply elem_of_app. now left. }
    intros o' c' Hc'. simpl in *.
    destruct (decide (channelKey (channel c) (param c)
                      = channelKey (channel c') (param c'))) as [Hk|Hk].
    + right. apply channelKey_inj in Hk as [<- <-].
      exists i, (exclusiveKey c). simpl. apply elem_of_app. right.
      apply list_elem_of_here.
    + rewrite Map_get_delete_ne by exact Hk.
      destruct (Hinv o' c' Hc') as [H | (j & k & H)]; [now left | right].
      exists j, k. simpl. apply elem_of_app. now left.
Qed.

Lemma reachable_registered_or_quit (w : World) : reachable w → registered_or_quit w.
Proof.
  induction 1 as [address | w e r w' Hw IH Hstep].
  - intros o c Hc. discriminate.
  - eapply step_registered_or_quit; eassumption.
Qed.

(** C8, as the code has it.  In every reachable store: while the
    transport is open, every Channel of the registry has had a
    "join_channel" frame with its (channel, param, exclusiveKey) sent; and
    if such a frame has been sent for a (channel, param), that key is in
    the registry unless a "disconnect_channel" frame for the same (channel,
    param) has been sent. *)
Theorem registry_and_join_requests (w : World) :
  reachable w →
  (is_open w → ∀ ch p k, registered w ch p k → join_sent w ch p k) ∧
  (∀ ch p k, join_sent w ch p k →
     is_Some (Map_get (channelKey ch p) (_channels (this w))) ∨ quit_sent w ch p).
Proof.
  intros Hw. split.
  - apply reachable_joined_when_open, Hw.
  - intros ch p k [i Hin].
    destruct (reachable_joins_accounted w Hw i ch p k Hin) as (o & c & Hc & Hid).
    injection Hid as <- <- _.
    exact (reachable_registered_or_quit w Hw o c Hc).
Qed.

(** C8 as stated fails: a Channel requested while the transport is still
    connecting is in the registry, and no join request has been sent. *)
Lemma registered_without_join_request :
  ∃ w, requested_while_connecting = Some w ∧ reachable w ∧
       ¬ (registered w "lobby" "42" EmptyString ↔
          join_sent w "lobby" "42" EmptyString).
Proof.
  eexists. split; [reflexivity|]. split.
  - eapply (run_reachable [call_channel "lobby" (Some "42") None]);
      [apply reachable_new | reflexivity].
  - intros [Hiff _].
    destruct Hiff as [i Hin].
    + exists 0. eexists. repeat split; reflexivity.
    + simpl in Hin. apply list_elem_of_singleton in Hin. discriminate.
Qed.

(** ** The join acknowledgment *)

Lemma on_join_result (w : World) (o : nat) (c : Channel)
    (ch p welcome : string) (num : Z) :
  objects w !! o = Some c →
  Channel__onMessage o (JoinResultMessage ch p num welcome) w =
  (Normal tt,
   snd (clearTimeout (_joinTimeout c) (add_log (channel_emit o (ev_join welcome)) w))).
Proof. intros Hc. run_m. now rewrite Hc. Qed.

(** C4 does not hold of the code.  After [fast_reconnect] Channel 0 has
    two retry timers pending, 1 and 2, and [_joinTimeout] holds 2.  The
    "join_result" frame makes the Channel emit "join" with the welcome text
    once and clears timer 2; timer 1 stays pending and, when it fires 600
    ms later on the same open transport, a further "join_channel" frame is
    sent and a new retry timer armed, with no reconnect in between. *)
Theorem join_result_leaves_older_retry :
  ∃ w1 w2 w3,
    run fast_reconnect (Socket_new endpoint) = Some w1 ∧
    objects w1 !! 0 = Some (set__joinTimeout (Some 2) lobby) ∧
    pending w1 1 = Some {| callback := JoinRetry 0; delay := 1000; due := 1000 |} ∧
    pending w1 2 = Some {| callback := JoinRetry 0; delay := 1000; due := 1400 |} ∧
    step join_result_lobby w1 = Some (Normal tt, w2) ∧
    log w2 = log w1 ++ [channel_emit 0 (ev_join "hi"); call_clearTimeout (Some 2)] ∧
    pending w2 2 = None ∧
    pending w2 1 = Some {| callback := JoinRetry 0; delay := 1000; due := 1000 |} ∧
    run [elapse 600; timer_fires 1] w2 = Some w3 ∧
    log w3 = log w2 ++
      [ws_send 1 (JoinChannelMessage "lobby" "42" EmptyString);
       call_setTimeout 4 (JoinRetry 0) 1000] ∧
    _ws (this w3) = Some 1.
Proof.
  eexists _, _, _.
  split; [vm_compute; reflexivity|].
  split; [reflexivity|]. split; [reflexivity|]. split; [reflexivity|].
  split; [vm_compute; reflexivity|].
  split; [reflexivity|]. split; [reflexivity|]. split; [reflexivity|].
  split; [vm_compute; reflexivity|].
  split; reflexivity.
Qed.

(** ** The theorems at work on a small session *)

Example lobby_joined_log :
  log lobby_joined =
  [new_WebSocket 0 endpoint 10000;
   socket_emit ev_open;
   call_setTimeout 0 HeartbeatPing 10000;
   ws_send 0 (JoinChannelMessage "lobby" "42" EmptyString);
   call_setTimeout 1 (JoinRetry 0) 1000].
Proof. reflexivity. Qed.

Example close_1000_is_final :
  log <$> run [emit_close 0 1000 "bye"] lobby_joined =
  Some (log lobby_joined ++
        [call_clearTimeout (Some 0); socket_emit (ev_close 1000 "bye")]).
Proof. reflexivity. Qed.

Example close_1001_reconnects :
  log <$> run [emit_close 0 1001 "away"] lobby_joined =
  Some (log lobby_joined ++
        [call_clearTimeout (Some 0); socket_emit (ev_reconnect 1001 "away");
         new_WebSocket 1 endpoint 10000]).
Proof. reflexivity. Qed.

Example close_2000_is_final :
  log <$> run [emit_close 0 2000 "kicked"] lobby_joined =
  Some (log lobby_joined ++
        [call_clearTimeout (Some 0); socket_emit (ev_close 2000 "kicked")]).
Proof. reflexivity. Qed.

Example heartbeat_round :
  log <$> run [elapse 10000; timer_fires 0; elapse 1000; timer_fires 2]
              lobby_joined =
  Some (log lobby_joined ++
        [ws_ping 0; call_setTimeout 2 PongDeadline 1000; ws_terminate 0]).
Proof. reflexivity. Qed.

Lemma opened_reachable : reachable opened.
Proof.
  apply (run_reachable [emit_open 0] (Socket_new endpoint));
    [apply reachable_new | reflexivity].
Qed.

Lemma lobby_joined_reachable : reachable lobby_joined.
Proof.
  apply (run_reachable [call_channel "lobby" (Some "42") None] opened);
    [apply opened_reachable | reflexivity].
Qed.

Lemma close_event_classification_witness :
  ∃ w', step (emit_close 0 1006 "gone") lobby_joined = Some (Normal tt, w') ∧
        pending w' 0 = None ∧ _ws (this w') = Some 1.
Proof.
  destruct (close_event_classification lobby_joined 0 (transport0 OPEN) 1006 "gone")
    as (w' & Hstep & Hclear & _ & Hreconnect).
  - split; reflexivity.
  - simpl. discriminate.
  - exists w'. split; [exact Hstep|]. split.
    + apply Hclear. reflexivity.
    + apply Hreconnect. lia.
Defined.

Lemma heartbeat_cycle_witness :
  ∃ w' t, step (emit_pong 0) lobby_joined = Some (Normal tt, w') ∧
          pending w' 0 = None ∧
          pending w' t = Some {| callback := HeartbeatPing; delay := 10000;
                                 due := now lobby_joined + 10000 |}.
Proof.
  destruct (heartbeat_cycle lobby_joined 0 0 (transport0 OPEN) (transport0 OPEN))
    as (_ & Hpong & _).
  - apply lobby_joined_reachable.
  - reflexivity.
  - split; reflexivity.
  - destruct Hpong as (w' & t & Hstep & Hclear & _ & _ & _ & Hp); [reflexivity|].
    exists w', t. split; [exact Hstep|]. split; [|exact Hp].
    apply Hclear. reflexivity.
Defined.

Lemma join_handshake_witness :
  ∃ w' t, Channel__join 0 lobby_joined = (Normal tt, w') ∧
          pending w' t = Some {| callback := JoinRetry 0; delay := 1000;
                                 due := now lobby_joined + 1000 |}.
Proof.
  destruct (join_handshake lobby_joined 0 0 lobby (transport0 OPEN))
    as (_ & Hopen & _).
  - apply lobby_joined_reachable.
  - reflexivity.
  - split; reflexivity.
  - destruct Hopen as (w' & t & Hjoin & _ & _ & Hp & _); [reflexivity|].
    now exists w', t.
Defined.

Lemma unmatched_frame_dropped_witness :
  step (emit_message 0 (Text (KickMessage "lobby" "7" []))) lobby_joined
  = Some (Normal tt, lobby_joined).
Proof.
  apply (unmatched_frame_dropped lobby_joined 0 (transport0 OPEN)
           (KickMessage "lobby" "7" [])); reflexivity.
Defined.


Lemma connect_guard_witness :
  Socket_connect lobby_joined
  = (Throw (JsError "Socket is already open"), lobby_joined).
Proof.
  apply (connect_guard lobby_joined 0 (transport0 OPEN)).
  - reflexivity.
  - reflexivity.
  - right. reflexivity.
Defined.

Lemma registry_and_join_requests_witness :
  join_sent lobby_joined "lobby" "42" EmptyString.
Proof.
  apply (registry_and_join_requests lobby_joined lobby_joined_reachable).
  - exists 0, (transport0 OPEN). repeat split; reflexivity.
  - exists 0, lobby. repeat split; reflexivity.
Defined.

Lemma quit_effect_witness :
  ∃ w', Channel_quit 0 lobby_joined = (Normal tt, w') ∧
        _channels (this w') = [] ∧
        pending w' 1 = Some {| callback := JoinRetry 0; delay := 1000; due := 1000 |}.
Proof.
  destruct (quit_effect lobby_joined 0 lobby lobby_joined_reachable)
    as (i & w' & _ & Hquit & _ & Hreg & _ & _ & _ & _ & _ & Hpending & _).
  - reflexivity.
  - exists 0, (transport0 OPEN). repeat split.
  - exists w'. split; [exact Hquit|]. split.
    + rewrite Hreg. reflexivity.
    + rewrite Hpending. reflexivity.
Defined.

Lemma exclusive_key_of_first_request_witness :
  Socket_channel "lobby" (Some "42") (Some "second") lobby_joined
  = (Normal 0, lobby_joined).
Proof.
  apply (exclusive_key_of_first_request opened lobby_joined lobby_joined
           "lobby" (Some "42") None (Some "second") 0 []).
  - apply opened_reachable.
  - reflexivity.
  - reflexivity.
  - reflexivity.
  - reflexivity.
Defined.

(** * Further properties of the program *)

(** ** The registry key *)

(** X1. [channelKey] is injective: two (channel, param) pairs have the
    same key only if they are the same pair, whatever quotes, commas,
    brackets or backslashes the names contain. *)
Theorem channelKey_injective (c1 p1 c2 p2 : string) :
  channelKey c1 p1 = channelKey c2 p2 ↔ c1 = c2 ∧ p1 = p2.
Proof.
  split; [apply channelKey_inj|]. now intros [-> ->].
Qed.

(** ** The constructor and the getter *)

(** X2. [new Socket(url)] returns with one transport, created for [url]
    with a handshake timeout of 10000 ms and still connecting, as the
    current one; the registry and the timer table are empty, nothing has
    been emitted, [isOpen] answers [false], and a [connect()] by the
    consumer at this point throws "Socket is already open" and changes
    nothing. *)
Theorem constructor_connects (address : string) :
  current_transport (Socket_new address) 0
    {| ws_address := address; handshakeTimeout := 10000;
       readyState := CONNECTING |} ∧
  sockets (Socket_new address) =
    [{| ws_address := address; handshakeTimeout := 10000;
        readyState := CONNECTING |}] ∧
  _channels (this (Socket_new address)) = [] ∧
  timers (Socket_new address) = [] ∧
  log (Socket_new address) = [new_WebSocket 0 address 10000] ∧
  Socket_isOpen (Socket_new address) = (Normal false, Socket_new address) ∧
  Socket_connect (Socket_new address) =
    (Throw (JsError "Socket is already open"), Socket_new address).
Proof. repeat split. Qed.

(** X3. In every reachable store the getter [isOpen] returns normally,
    without touching the store ([this._ws] is never undefined once the
    constructor has run), and answers [true] exactly when the current
    transport is in state [OPEN]. *)
Theorem isOpen_answers (w : World) :
  reachable w →
  ∃ b i x, current_transport w i x ∧
    Socket_isOpen w = (Normal b, w) ∧
    (b = true ↔ readyState x = OPEN).
Proof.
  intros Hw. destruct (reachable_transport_bound w Hw) as (i & Hi & Hlt).
  destruct (lookup_lt_is_Some_2 (sockets w) i Hlt) as [x Hx].
  exists (ReadyState_eqb (readyState x) OPEN), i, x.
  split; [now split|].
  split; [exact (Socket_isOpen_eq w i x (conj Hi Hx))|].
  apply ReadyState_eqb_eq.
Qed.

Lemma isOpen_answers_witness :
  ∃ i x, current_transport lobby_joined i x ∧
         Socket_isOpen lobby_joined = (Normal true, lobby_joined) ∧
         readyState x = OPEN.
Proof.
  destruct (isOpen_answers lobby_joined lobby_joined_reachable)
    as (b & i & x & Hcur & Hopen & Hb).
  exists i, x. split; [exact Hcur|].
  assert (b = true) as ->.
  { pose proof Hopen as H. vm_compute in H. now injection H as <-. }
  split; [exact Hopen | now apply Hb].
Defined.

(** ** Sending on a Channel *)

(** X4. [send(obj)] of a Channel calls [send()] of the current transport
    once, with a "data" frame of the Channel's (channel, param) and [obj],
    and changes nothing else.  It looks neither at [isOpen] nor at the
    registry, so a Channel that was quit still sends.  While the transport
    is open the call returns; while the transport is still connecting
    [send()] throws, and the error leaves [Channel.send]. *)
Theorem send_effect (w : World) (o i : nat) (c : Channel) (x : WebSocket)
    (obj : Json) :
  objects w !! o = Some c → current_transport w i x →
  (readyState x = OPEN →
   Channel_send o obj w =
   (Normal tt,
    add_log (ws_send i (OutgoingDataMessage (channel c) (param c) obj)) w)) ∧
  (readyState x = CONNECTING →
   Channel_send o obj w =
   (Throw not_open_error,
    add_log (ws_send i (OutgoingDataMessage (channel c) (param c) obj)) w)).
Proof.
  intros Hc [Hi Hx]. split; intros Hrs; run_m; rewrite Hc; simpl; rewrite Hi.
  - rewrite (handshaking_not w i x Hx) by congruence. reflexivity.
  - now rewrite (handshaking_connecting w i x Hx Hrs).
Qed.

Lemma send_effect_witness :
  Channel_send 0 (JString "hello") lobby_joined =
  (Normal tt,
   add_log (ws_send 0 (OutgoingDataMessage "lobby" "42" (JString "hello")))
     lobby_joined).
Proof.
  destruct (send_effect lobby_joined 0 0 lobby (transport0 OPEN)
              (JString "hello") eq_refl (conj eq_refl eq_refl)) as [Hsend _].
  exact (Hsend eq_refl).
Defined.

(** ** Dispatching a frame to its Channel *)

(** X5. A frame whose (channel, param) is the key of a registered Channel
    is handed to that Channel, which acts on its kind: a "server_broadcast"
    frame is emitted as "message" and an "exclusive_kickoff" frame as
    "kick", each once and with the whole frame, and nothing else changes;
    in particular a kick leaves the Channel in the registry.  A "heartbeat"
    frame has no effect at all. *)
Theorem frames_routed_by_kind (w : World) (i o : nat) (x : WebSocket)
    (ch p : string) :
  sockets w !! i = Some x → receiving (readyState x) = true →
  Map_get (channelKey ch p) (_channels (this w)) = Some o →
  (∀ fields,
     step (emit_message i (Text (IncomingDataMessage ch p fields))) w =
     Some (Normal tt,
           add_log (channel_emit o (ev_message (IncomingDataMessage ch p fields))) w)) ∧
  (∀ fields,
     step (emit_message i (Text (KickMessage ch p fields))) w =
     Some (Normal tt,
           add_log (channel_emit o (ev_kick (KickMessage ch p fields))) w)) ∧
  (∀ num,
     step (emit_message i (Text (HeartbeatMessage ch p num))) w =
     Some (Normal tt, w)).
Proof.
  intros Hx Hrs Hget.
  repeat split; intros; unfold step, transport_emits; rewrite Hx, Hrs;
    unfold on_message, JSON_parse, bind, ret, gets; simpl; now rewrite Hget.
Qed.

Lemma frames_routed_by_kind_witness :
  step (emit_message 0 (Text (KickMessage "lobby" "42" []))) lobby_joined =
  Some (Normal tt,
        add_log (channel_emit 0 (ev_kick (KickMessage "lobby" "42" [])))
          lobby_joined).
Proof.
  apply (frames_routed_by_kind lobby_joined 0 0 (transport0 OPEN) "lobby" "42");
    reflexivity.
Defined.

(** X6. A "join_result" frame for a registered Channel makes it emit
    "join" with the welcome text once and then clear the timer its
    [_joinTimeout] holds: that timer is no longer pending, every other
    timer is as it was, and the Socket, the Channels and the transports are
    unchanged. *)
Theorem join_result_clears_held_timer (w : World) (i o : nat) (x : WebSocket)
    (c : Channel) (ch p welcome : string) (num : Z) :
  sockets w !! i = Some x → receiving (readyState x) = true →
  Map_get (channelKey ch p) (_channels (this w)) = Some o →
  objects w !! o = Some c →
  ∃ w', step (emit_message i (Text (JoinResultMessage ch p num welcome))) w
          = Some (Normal tt, w') ∧
    log w' = log w ++ [channel_emit o (ev_join welcome);
                       call_clearTimeout (_joinTimeout c)] ∧
    (∀ t, _joinTimeout c = Some t → pending w' t = None) ∧
    (∀ t, _joinTimeout c ≠ Some t → pending w' t = pending w t) ∧
    this w' = this w ∧ objects w' = objects w ∧ sockets w' = sockets w.
Proof.
  intros Hx Hrs Hget Hc.
  assert (step (emit_message i (Text (JoinResultMessage ch p num welcome))) w
          = Some (Normal tt,
                  snd (clearTimeout (_joinTimeout c)
                         (add_log (channel_emit o (ev_join welcome)) w)))) as Hstep.
  { unfold step, transport_emits. rewrite Hx, Hrs. run_m.
    rewrite Hget. simpl. rewrite Hc. reflexivity. }
  eexists. split; [exact Hstep|].
  destruct (_joinTimeout c) as [t0|]; simpl.
  - split; [now rewrite <- app_assoc|].
    split; [intros t [= <-]; eapply pending_cleared; reflexivity|].
    split; [|repeat split].
    intros t Hne. unfold pending. simpl.
    rewrite list_lookup_insert_ne; [reflexivity | congruence].
  - split; [now rewrite <- app_assoc|].
    split; [discriminate|]. repeat split.
Qed.

Lemma join_result_clears_held_timer_witness :
  ∃ w', step (emit_message 0 (Text (JoinResultMessage "lobby" "42" 1 "hi")))
             lobby_joined = Some (Normal tt, w') ∧
        pending w' 1 = None ∧ pending w' 0 = pending lobby_joined 0.
Proof.
  destruct (join_result_clears_held_timer lobby_joined 0 0 (transport0 OPEN)
              lobby "lobby" "42" "hi" 1)
    as (w' & Hstep & _ & Hclear & Hkeep & _); try reflexivity.
  exists w'. split; [exact Hstep|]. split.
  - apply Hclear. reflexivity.
  - apply Hkeep. simpl. discriminate.
Defined.

(** ** What an event never does *)

(** X7. Only [channel()] and [quit()] change the registry: after any
    other event (a frame, a kick included, a pong, an open, close or error
    of a transport, a timer, [connect()], [close()], [send()]) the registry
    is the one before, whether the reaction returned or threw. *)
Theorem registry_changed_only_by_channel_and_quit (e : Event) (w w' : World)
    (r : Completion unit) :
  step e w = Some (r, w') →
  (∀ ch p k, e ≠ call_channel ch p k) → (∀ o, e ≠ call_quit o) →
  _channels (this w') = _channels (this w).
Proof.
  intros Hstep Hch Hq. change (same_registry w w').
  eapply step_respects; [apply _ | exact Hstep |].
  destruct e; first [exact I | apply _ | idtac].
  - now destruct (Hch channel0 param0 exclusiveKey0).
  - now destruct (Hq o).
Qed.

Lemma registry_changed_only_by_channel_and_quit_witness :
  ∃ w', step (emit_close 0 1006 "gone") lobby_joined = Some (Normal tt, w') ∧
        _channels (this w') = _channels (this lobby_joined).
Proof.
  destruct (step (emit_close 0 1006 "gone") lobby_joined) as [[r w']|] eqn:Hstep;
    [|vm_compute in Hstep; discriminate].
  assert (r = Normal tt) as ->.
  { pose proof Hstep as H. vm_compute in H. now injection H as <- _. }
  exists w'. split; [reflexivity|].
  apply (registry_changed_only_by_channel_and_quit
           (emit_close 0 1006 "gone") lobby_joined w' (Normal tt) Hstep);
    discriminate.
Defined.

(** X8. Along any run of events the address of the Socket stays, every
    Channel of the store stays in the store with the (channel, param,
    exclusiveKey) it was created with, no transport disappears, and the log
    of calls only grows at its end. *)
Theorem identities_are_kept (es : list Event) (w w' : World) :
  run es w = Some w' →
  url (this w') = url (this w) ∧
  length (sockets w) ≤ length (sockets w') ∧
  (∀ o c, objects w !! o = Some c →
     ∃ c', objects w' !! o = Some c' ∧ channel c' = channel c ∧
           param c' = param c ∧ exclusiveKey c' = exclusiveKey c) ∧
  ∃ l, log w' = log w ++ l.
Proof.
  intros Hrun. destruct (run_evolves es w w' Hrun) as (Hu & Hs & Ho & Hl).
  split; [exact Hu|]. split; [exact Hs|]. split; [|exact Hl].
  intros o c Hc. destruct (Ho o c Hc) as (c' & Hc' & Hid).
  exists c'. injection Hid as H1 H2 H3. auto.
Qed.

Lemma identities_are_kept_witness :
  ∃ w' c', run [call_quit 0; emit_close 0 1006 "gone"; emit_open 1] lobby_joined
           = Some w' ∧
    objects w' !! 0 = Some c' ∧ channel c' = "lobby" ∧ param c' = "42".
Proof.
  destruct (run [call_quit 0; emit_close 0 1006 "gone"; emit_open 1] lobby_joined)
    as [w'|] eqn:Hrun; [|vm_compute in Hrun; discriminate].
  destruct (identities_are_kept _ lobby_joined w' Hrun) as (_ & _ & Ho & _).
  destruct (Ho 0 lobby eq_refl) as (c' & Hc' & H1 & H2 & _).
  exists w', c'. split; [reflexivity|]. auto.
Defined.

(** X9. Only the [open] event of a transport makes the Socket open: after
    any other event [isOpen] holds only if it held before.  In particular
    [connect()] never returns with an open transport. *)
Theorem only_open_event_opens (e : Event) (w w' : World) (r : Completion unit) :
  step e w = Some (r, w') → (∀ i, e ≠ emit_open i) →
  is_open w' → is_open w.
Proof.
  intros Hstep Hne. change (opens_nothing w w').
  eapply step_respects; [apply _ | exact Hstep |].
  destruct e; first [exact I | apply _ | split; apply _ | idtac].
  now destruct (Hne ws).
Qed.

Lemma only_open_event_opens_witness : is_open lobby_joined.
Proof.
  destruct (step (emit_pong 0) lobby_joined) as [[r w']|] eqn:Hstep;
    [|vm_compute in Hstep; discriminate].
  apply (only_open_event_opens (emit_pong 0) lobby_joined w' r Hstep).
  - discriminate.
  - vm_compute in Hstep. injection Hstep as _ <-.
    exists 0, (transport0 OPEN). repeat split; reflexivity.
Defined.

(** ** Errors and shutdown *)

(** X10. An [error] event of a transport that is not yet closed makes the
    listener call [terminate()] on the current transport, which need not
    be the one that failed.  Nothing is emitted, no timer is cleared or
    armed, and the registry is kept.  When the current transport is the one
    that failed, or is past its handshake, that one call is all.  When it
    is another transport and still in its handshake, [terminate()] aborts
    the handshake, the listener runs again inside the call and calls
    [terminate()] a second time. *)
Theorem error_terminates_current (w : World) (i j : nat) (x y : WebSocket) :
  sockets w !! i = Some x → readyState x ≠ CLOSED →
  current_transport w j y →
  ∃ w', step (emit_error i) w = Some (Normal tt, w') ∧
    (i = j ∨ readyState y ≠ CONNECTING →
     log w' = log w ++ [ws_terminate j]) ∧
    (i ≠ j → readyState y = CONNECTING →
     log w' = log w ++ [ws_terminate j; ws_terminate j]) ∧
    timers w' = timers w ∧ this w' = this w ∧ objects w' = objects w.
Proof.
  intros Hx Hrs [Hj Hy].
  set (w0 := set_sockets (alter (set_readyState CLOSING) i) w).
  assert (step (emit_error i) w = Some (on_error w0)) as Hstep.
  { unfold step, transport_emits. rewrite Hx.
    now replace (negb (ReadyState_eqb (readyState x) CLOSED)) with true
      by (destruct (readyState x); simpl; congruence). }
  assert (_ws (this w0) = Some j) as Hj0 by exact Hj.
  rewrite Hstep. unfold on_error.
  destruct (handshaking j w0) eqn:Hh.
  - rewrite (on_error_within_aborted 0 j w0 Hj0 Hh). eexists.
    split; [reflexivity|]. simpl. split; [|split; [|repeat split]].
    + unfold handshaking, w0 in Hh. simpl in Hh. intros [-> | Hne].
      * rewrite list_lookup_alter_eq, Hx in Hh. discriminate.
      * destruct (decide (i = j)) as [->|Hij].
        -- rewrite list_lookup_alter_eq, Hx in Hh. discriminate.
        -- rewrite list_lookup_alter_ne, Hy in Hh by exact Hij.
           apply ReadyState_eqb_eq in Hh. contradiction.
    + intros _ _. now rewrite <- app_assoc.
  - rewrite (on_error_within_settled 1 j w0 Hj0 Hh). eexists.
    split; [reflexivity|]. simpl. split; [|split; [|repeat split]].
    + reflexivity.
    + intros Hij Hc. unfold handshaking, w0 in Hh. simpl in Hh.
      rewrite list_lookup_alter_ne, Hy, Hc in Hh by exact Hij. discriminate.
Qed.

Lemma error_terminates_current_witness :
  ∃ w', step (emit_error 0) lobby_joined = Some (Normal tt, w') ∧
        log w' = log lobby_joined ++ [ws_terminate 0] ∧
        timers w' = timers lobby_joined.
Proof.
  destruct (error_terminates_current lobby_joined 0 0 (transport0 OPEN)
              (transport0 OPEN) eq_refl)
    as (w' & Hstep & Hlog & _ & Htm & _).
  - simpl. discriminate.
  - split; reflexivity.
  - exists w'. split; [exact Hstep|]. split; [|exact Htm].
    apply Hlog. now left.
Defined.

(** X11. [close()] of the Socket calls [close()] on the current transport;
    it emits nothing, leaves the heartbeat and retry timers pending and
    keeps every Channel registered.  On a transport past its handshake that
    call is all.  On a transport still in its handshake the call aborts the
    handshake, and the "error" listener calls [terminate()] on the
    transport before [close()] returns. *)
Theorem close_requests_shutdown (w : World) (j : nat) (y : WebSocket) :
  current_transport w j y →
  ∃ w', Socket_close w = (Normal tt, w') ∧
    (readyState y ≠ CONNECTING → log w' = log w ++ [ws_close j]) ∧
    (readyState y = CONNECTING →
     log w' = log w ++ [ws_close j; ws_terminate j]) ∧
    timers w' = timers w ∧ this w' = this w ∧ objects w' = objects w.
Proof.
  intros [Hj Hy]. unfold Socket_close. rewrite (this__ws_bind _ j w Hj).
  unfold WebSocket_close. destruct (readyState y) eqn:Hrs.
  1:{ rewrite WebSocket_shut_aborted
        by now apply (handshaking_connecting w j y).
      unfold on_error.
      rewrite (on_error_within_settled 1 j);
        [| exact Hj | apply handshaking_shut].
      eexists. split; [reflexivity|]. simpl.
      split; [congruence|]. split; [|repeat split].
      intros _. now rewrite <- app_assoc. }
  all: rewrite WebSocket_shut_settled
         by (apply (handshaking_not w j y Hy); congruence).
  all: eexists; split; [reflexivity|]; simpl.
  all: split; [reflexivity|]; split; [discriminate | repeat split].
Qed.

Lemma close_requests_shutdown_witness :
  ∃ w', Socket_close lobby_joined = (Normal tt, w') ∧
        log w' = log lobby_joined ++ [ws_close 0] ∧
        pending w' 1 = pending lobby_joined 1.
Proof.
  destruct (close_requests_shutdown lobby_joined 0 (transport0 OPEN))
    as (w' & Hclose & Hlog & _ & Htm & _).
  - split; reflexivity.
  - exists w'. split; [exact Hclose|]. split.
    + apply Hlog. simpl. discriminate.
    + unfold pending. now rewrite Htm.
Defined.

(** ** The registry *)

(** X12. In every reachable store a registered Channel is registered
    under the key of its own (channel, param) and under no other key, so
    two keys never lead to the same Channel. *)
Theorem registry_injective (w : World) (k1 k2 : string) (o : nat) :
  reachable w →
  Map_get k1 (_channels (this w)) = Some o →
  Map_get k2 (_channels (this w)) = Some o →
  k1 = k2 ∧ ∃ c, objects w !! o = Some c ∧ k1 = channelKey (channel c) (param c).
Proof.
  intros Hw H1 H2.
  destruct (reachable_registry_sound w Hw k1 o (Map_get_elem_of _ _ _ H1))
    as (c1 & Hc1 & Hk1).
  destruct (reachable_registry_sound w Hw k2 o (Map_get_elem_of _ _ _ H2))
    as (c2 & Hc2 & Hk2).
  assert (c2 = c1) as -> by congruence.
  split; [congruence|]. now exists c1.
Qed.

Lemma registry_injective_witness :
  ∃ c, objects lobby_joined !! 0 = Some c ∧
       channelKey "lobby" "42" = channelKey (channel c) (param c).
Proof.
  apply (registry_injective lobby_joined (channelKey "lobby" "42")
           (channelKey "lobby" "42") 0 lobby_joined_reachable);
    reflexivity.
Defined.

(** ** Requesting a Channel that is not registered *)

Lemma current_transport_created (w : World) (ch p k : string) (i : nat)
    (x : WebSocket) :
  current_transport w i x → current_transport (created ch p k w) i x.
Proof. intros H. exact H. Qed.

(** X13. [channel()] for a (channel, param) that is not registered creates
    a Channel with the given exclusive key and registers it at the end of
    the registry.  If the transport is not open that is all: nothing is
    sent and no timer is armed.  If it is open the join request is sent and
    the retry timer armed at once. *)
Theorem channel_creates (w : World) (ch : string) (p k : option string)
    (i : nat) (x : WebSocket) :
  current_transport w i x →
  Map_get (channelKey ch (default EmptyString p)) (_channels (this w)) = None →
  (readyState x ≠ OPEN →
   Socket_channel ch p k w =
   (Normal (length (objects w)),
    created ch (default EmptyString p) (default EmptyString k) w)) ∧
  (readyState x = OPEN →
   Socket_channel ch p k w =
   (Normal (length (objects w)),
    join_requested i (length (objects w))
      {| channel := ch; param := default EmptyString p;
         exclusiveKey := default EmptyString k; _joinTimeout := None |}
      (created ch (default EmptyString p) (default EmptyString k) w))) ∧
  log (created ch (default EmptyString p) (default EmptyString k) w) = log w ∧
  timers (created ch (default EmptyString p) (default EmptyString k) w) = timers w ∧
  _channels (this (created ch (default EmptyString p) (default EmptyString k) w))
  = Map_set (channelKey ch (default EmptyString p)) (length (objects w))
      (_channels (this w)).
Proof.
  intros Hcur Habsent.
  set (dp := default EmptyString p). set (dk := default EmptyString k).
  assert (objects (created ch dp dk w) !! length (objects w)
          = Some {| channel := ch; param := dp; exclusiveKey := dk;
                    _joinTimeout := None |}) as Hc.
  { simpl. now rewrite list_lookup_middle. }
  split; [|split; [|repeat split]].
  - intros Hrs. rewrite (Socket_channel_absent w ch p k Habsent). simpl.
    fold dp dk.
    now rewrite (Channel__join_closed _ _ i _ x Hc
                   (current_transport_created w ch dp dk i x Hcur) Hrs).
  - intros Hrs. rewrite (Socket_channel_absent w ch p k Habsent). simpl.
    fold dp dk.
    now rewrite (Channel__join_open _ _ i _ x Hc
                   (current_transport_created w ch dp dk i x Hcur) Hrs).
Qed.

Lemma channel_creates_witness :
  Socket_channel "lobby" (Some "42") None (Socket_new endpoint) =
  (Normal 0, created "lobby" "42" EmptyString (Socket_new endpoint)) ∧
  log (created "lobby" "42" EmptyString (Socket_new endpoint))
  = log (Socket_new endpoint).
Proof.
  destruct (channel_creates (Socket_new endpoint) "lobby" (Some "42") None 0
              (transport0 CONNECTING)) as (Hclosed & _ & Hlog & _).
  - split; reflexivity.
  - reflexivity.
  - split; [|exact Hlog]. apply Hclosed. simpl. discriminate.
Defined.

(** X14. After a [quit()] on an open transport a request for the same
    (channel, param) creates a new Channel: it is not the Channel that was
    quit, it carries the exclusive key of the new request, and it is the
    one registered; the old Channel object is still in the store, with its
    old key. *)
Theorem quit_then_channel_creates_anew (w : World) (o : nat) (c : Channel)
    (k' : string) :
  reachable w → objects w !! o = Some c → is_open w →
  ∃ w1 o' w2 c',
    Channel_quit o w = (Normal tt, w1) ∧
    Socket_channel (channel c) (Some (param c)) (Some k') w1 = (Normal o', w2) ∧
    o' ≠ o ∧
    Map_get (channelKey (channel c) (param c)) (_channels (this w2)) = Some o' ∧
    objects w2 !! o' = Some c' ∧
    identity c' = (channel c, param c, k') ∧
    ∃ c2, objects w2 !! o = Some c2 ∧ identity c2 = identity c.
Proof.
  intros Hw Hc (i & x & Hcur & Hrs).
  destruct (reachable_transport_bound w Hw) as (i' & Hi & Hlt).
  assert (i' = i) as -> by (destruct Hcur; congruence).
  assert (Channel_quit o w = (Normal tt, quitted i c w)) as Hquit.
  { apply (Channel_quit_open w o i c x Hc Hcur). congruence. }
  set (w1 := quitted i c w) in *.
  assert (transport_bound w1) as Htb1 by (exists i; split; assumption).
  assert (Map_get (channelKey (channel c) (default EmptyString (Some (param c))))
            (_channels (this w1)) = None)
    as Habsent by apply Map_get_delete_eq.
  destruct (Socket_channel_spec w1 (channel c) (Some (param c)) (Some k') Htb1)
    as (o' & w2 & Hcall & Hget & Hcase).
  rewrite Habsent in Hcase. destruct Hcase as [Ho' Hw2].
  assert (evolves (created (channel c) (param c) k' w1) w2) as (_ & _ & Hobj & _).
  { rewrite Hw2. apply (harmless_join (R := evolves)). }
  destruct (Hobj o' {| channel := channel c; param := param c;
                       exclusiveKey := k'; _joinTimeout := None |})
    as (c' & Hc' & Hid').
  { simpl. rewrite Ho'. now apply list_lookup_middle. }
  destruct (Hobj o c) as (c2 & Hc2 & Hid2).
  { simpl. now apply lookup_app_l_Some. }
  exists w1, o', w2, c'. split; [exact Hquit|]. split; [exact Hcall|].
  split; [apply lookup_lt_Some in Hc; simpl in Ho'; lia|].
  split; [exact Hget|]. split; [exact Hc'|]. split; [exact Hid'|].
  now exists c2.
Qed.

Lemma quit_then_channel_creates_anew_witness :
  ∃ w1 w2 c',
    Channel_quit 0 lobby_joined = (Normal tt, w1) ∧
    Socket_channel "lobby" (Some "42") (Some "mine") w1 = (Normal 1, w2) ∧
    objects w2 !! 1 = Some c' ∧ exclusiveKey c' = "mine".
Proof.
  destruct (quit_then_channel_creates_anew lobby_joined 0 lobby "mine"
              lobby_joined_reachable eq_refl)
    as (w1 & o' & w2 & c' & Hquit & Hcall & _ & _ & Hc' & Hid & _).
  { exists 0, (transport0 OPEN). repeat split. }
  assert (o' = 1) as ->.
  { pose proof Hquit as H. vm_compute in H. injection H as <-.
    pose proof Hcall as H. vm_compute in H. now injection H as <- _. }
  exists w1, w2, c'. injection Hid as _ _ Hk. auto.
Defined.

(** X21. While the current transport is still in its handshake [quit()]
    throws: [send()] refuses the frame, and the error leaves [quit()] before
    the entry is deleted.  Nothing but the log changes, so the Channel
    stays registered, and a request for its (channel, param) still returns
    it, whatever exclusive key the request names. *)
Theorem quit_during_handshake_keeps_channel (w : World) (o i : nat)
    (c : Channel) (x : WebSocket) (k' : option string) :
  objects w !! o = Some c → current_transport w i x →
  readyState x = CONNECTING →
  ∃ w1, Channel_quit o w = (Throw not_open_error, w1) ∧
    log w1 = log w ++ [ws_send i (QuitChannelMessage (channel c) (param c)
                                                     (exclusiveKey c))] ∧
    this w1 = this w ∧ timers w1 = timers w ∧ objects w1 = objects w ∧
    sockets w1 = sockets w ∧
    (Map_get (channelKey (channel c) (param c)) (_channels (this w)) = Some o →
     Socket_channel (channel c) (Some (param c)) k' w1 = (Normal o, w1)).
Proof.
  intros Hc Hcur Hrs. eexists.
  split; [exact (Channel_quit_connecting w o i c x Hc Hcur Hrs)|].
  simpl. do 5 (split; [reflexivity|]).
  intros Hget. now apply Socket_channel_present.
Qed.

Lemma quit_during_handshake_keeps_channel_witness :
  ∃ w1,
    Channel_quit 0 (default (Socket_new endpoint) requested_while_connecting)
    = (Throw not_open_error, w1) ∧
    _channels (this w1) = [(channelKey "lobby" "42", 0)] ∧
    Socket_channel "lobby" (Some "42") (Some "mine") w1 = (Normal 0, w1).
Proof.
  destruct (quit_during_handshake_keeps_channel
              (default (Socket_new endpoint) requested_while_connecting) 0 0
              {| channel := "lobby"; param := "42";
                 exclusiveKey := EmptyString; _joinTimeout := None |}
              (transport0 CONNECTING) (Some "mine"))
    as (w1 & Hquit & _ & Hthis & _ & _ & _ & Hsame).
  - vm_compute. reflexivity.
  - split; vm_compute; reflexivity.
  - reflexivity.
  - exists w1. split; [exact Hquit|]. split.
    + rewrite Hthis. vm_compute. reflexivity.
    + apply Hsame. vm_compute. reflexivity.
Defined.

(** ** Retry timers that outlive their purpose *)

(** X15. [quit()] does not stop the join retry.  If a retry timer of the
    Channel is pending when it is quit and the transport stays open, the
    timer fires and sends a "join_channel" frame for the Channel that is no
    longer registered, arms the next retry, and so on for any number of
    rounds. *)
Theorem retry_survives_quit (w : World) (o i t : nat) (c : Channel)
    (x : WebSocket) (tm : Timer) (n : nat) :
  objects w !! o = Some c → current_transport w i x → readyState x = OPEN →
  pending w t = Some tm → callback tm = JoinRetry o →
  (due tm ≤ now w + 1000)%Z →
  ∃ w1 wn,
    Channel_quit o w = (Normal tt, w1) ∧
    Map_get (channelKey (channel c) (param c)) (_channels (this w1)) = None ∧
    retry_rounds (S n) t w1 = Some wn ∧
    log wn = log w1 ++
      retry_log i o (channel c) (param c) (exclusiveKey c) (length (timers w)) (S n).
Proof.
  intros Hc Hcur Hrs Hp Hcb Hdue. pose proof Hcur as [Hi Hx].
  set (w1 := quitted i c w).
  assert (Channel_quit o w = (Normal tt, w1)) as Hquit.
  { apply (Channel_quit_open w o i c x Hc Hcur). congruence. }
  set (w2 := set_timers (λ ts, <[t := None]> ts)
               (set_now (λ n, (n + 1000)%Z) w1)).
  set (w3 := join_requested i o c w2).
  assert (run [elapse 1000; timer_fires t] w1 = Some w3) as Hrun.
  { change (run [elapse 1000; timer_fires t] w1)
      with (match step (timer_fires t) (set_now (λ n, (n + 1000)%Z) w1) with
            | Some (_, w') => Some w'
            | None => None
            end).
    rewrite (step_timer (set_now (λ n, (n + 1000)%Z) w1) t tm Hp Hdue), Hcb.
    change (run_callback (JoinRetry o) ?v) with (Channel__join o v).
    fold w2. now rewrite (Channel__join_open w2 o i c x Hc Hcur Hrs). }
  assert (length (timers w2) = length (timers w)) as Hlen.
  { simpl. now rewrite length_insert. }
  destruct (retry_rounds_spec i o x (channel c) (param c) (exclusiveKey c) n
              w3 (length (timers w))
              (set__joinTimeout (Some (length (timers w2))) c))
    as (wn & Hn & Hlog & _).
  - exact Hcur.
  - exact Hrs.
  - simpl. now rewrite list_lookup_alter_eq, Hc.
  - reflexivity.
  - simpl. rewrite length_app, length_insert. simpl. lia.
  - unfold pending. simpl. rewrite list_lookup_middle; [reflexivity|].
    now rewrite length_insert.
  - exists w1, wn. split; [exact Hquit|].
    split; [apply Map_get_delete_eq|]. split.
    + rewrite retry_rounds_S, Hrun. exact Hn.
    + rewrite Hlog. simpl. rewrite length_insert. now rewrite <- !app_assoc.
Qed.

Lemma retry_survives_quit_witness :
  ∃ w1 wn,
    Channel_quit 0 lobby_joined = (Normal tt, w1) ∧
    retry_rounds 2 1 w1 = Some wn ∧
    log wn = log w1 ++
      [ws_send 0 (JoinChannelMessage "lobby" "42" EmptyString);
       call_setTimeout 2 (JoinRetry 0) 1000;
       ws_send 0 (JoinChannelMessage "lobby" "42" EmptyString);
       call_setTimeout 3 (JoinRetry 0) 1000].
Proof.
  assert (1000 ≤ now lobby_joined + 1000)%Z as Hdue by (vm_compute; discriminate).
  destruct (retry_survives_quit lobby_joined 0 0 1 lobby (transport0 OPEN)
              {| callback := JoinRetry 0; delay := 1000; due := 1000 |} 1
              eq_refl (conj eq_refl eq_refl) eq_refl eq_refl eq_refl Hdue)
    as (w1 & wn & Hquit & _ & Hrounds & Hlog).
  now exists w1, wn.
Defined.

(** X16. A retry timer that fires while the current transport is not open
    sends nothing and arms nothing: the timer is used up and that chain of
    retries has ended. *)
Theorem retry_stops_when_not_open (w : World) (o i t : nat) (c : Channel)
    (x : WebSocket) (tm : Timer) :
  objects w !! o = Some c → current_transport w i x → readyState x ≠ OPEN →
  pending w t = Some tm → callback tm = JoinRetry o → (due tm ≤ now w)%Z →
  step (timer_fires t) w =
  Some (Normal tt, set_timers (λ ts, <[t := None]> ts) w).
Proof.
  intros Hc Hcur Hrs Hp Hcb Hdue.
  rewrite (step_timer w t tm Hp Hdue), Hcb.
  change (run_callback (JoinRetry o) ?v) with (Channel__join o v).
  now rewrite (Channel__join_closed
                 (set_timers (λ ts, <[t := None]> ts) w) o i c x Hc Hcur Hrs).
Qed.

Lemma retry_stops_when_not_open_witness :
  ∃ w, run [call_channel "lobby" (Some "42") None; emit_close 0 1000 "bye";
            elapse 1000] opened = Some w ∧
       step (timer_fires 1) w =
       Some (Normal tt, set_timers (λ ts, <[1 := None]> ts) w).
Proof.
  eexists. split; [vm_compute; reflexivity|].
  apply (retry_stops_when_not_open _ 0 0 1 lobby (transport0 CLOSED)
           {| callback := JoinRetry 0; delay := 1000; due := 1000 |}).
  - reflexivity.
  - split; reflexivity.
  - simpl. discriminate.
  - reflexivity.
  - reflexivity.
  - vm_compute. discriminate.
Defined.

(** ** Reconnecting *)

Lemma emit_close_transient_spec (w : World) (i : nat) (x : WebSocket)
    (code : Z) (reason : string) :
  current_transport w i x → readyState x ≠ CLOSED → (1000 < code < 2000)%Z →
  ∃ w1, step (emit_close i code reason) w = Some (Normal tt, w1) ∧
    _ws (this w1) = Some (length (sockets w)) ∧
    sockets w1 !! length (sockets w) =
      Some {| ws_address := url (this w); handshakeTimeout := 10000;
              readyState := CONNECTING |} ∧
    _channels (this w1) = _channels (this w) ∧
    objects w1 = objects w.
Proof.
  intros [Hi Hx] Hrs Hc. unfold step, transport_emits. rewrite Hx.
  replace (negb (ReadyState_eqb (readyState x) CLOSED)) with true
    by (destruct (readyState x); simpl; congruence).
  destruct w as [[u ws pt chs] socks objs tms nw lg]. simpl in *. subst ws.
  rewrite (on_close_transient _ code reason Hc).
  match goal with |- context [Socket_connect ?w1] =>
    assert (Socket_connect w1 = (Normal tt, connected w1)) as ->
  end.
  { run_m. destruct pt; simpl; rewrite list_lookup_alter_eq, Hx; reflexivity. }
  eexists. split; [reflexivity|].
  destruct pt; simpl; rewrite length_alter; repeat split;
    apply list_lookup_middle; now rewrite length_alter.
Qed.

(** X17. Membership survives a reconnect.  When the current transport
    closes with a code strictly between 1000 and 2000 and the transport
    that [connect()] then created opens, the registry is the one before the
    close, the Socket is open again, and the [open] listener has sent, on
    the new transport, a "join_channel" frame for every Channel that was
    registered, acknowledged before or not. *)
Theorem reconnect_rejoins (w : World) (i : nat) (x : WebSocket) (code : Z)
    (reason : string) :
  reachable w → current_transport w i x → readyState x ≠ CLOSED →
  (1000 < code < 2000)%Z →
  ∃ w1 w2 l,
    step (emit_close i code reason) w = Some (Normal tt, w1) ∧
    step (emit_open (length (sockets w))) w1 = Some (Normal tt, w2) ∧
    (∃ l', log w2 = log w1 ++ l ++ l') ∧
    _channels (this w2) = _channels (this w) ∧
    is_open w2 ∧
    ∀ key o c, Map_get key (_channels (this w)) = Some o →
      objects w !! o = Some c →
      ws_send (length (sockets w))
        (JoinChannelMessage (channel c) (param c) (exclusiveKey c)) ∈ l.
Proof.
  intros Hw Hcur Hrs Hc.
  destruct (emit_close_transient_spec w i x code reason Hcur Hrs Hc)
    as (w1 & Hclose & Hws1 & Hnew & Hreg1 & Hobj1).
  assert (reachable w1) as Hw1 by (eapply reachable_step; eassumption).
  destruct (emit_open_spec w1 (length (sockets w)) _
              (reachable_transport_bound w1 Hw1)
              (reachable_registry_sound w1 Hw1) Hnew eq_refl)
    as (w2 & l & t & Hopen & Hlog & _ & _ & _ & Hws2 & Hreg2 & Hsock2 & _ & Hjoin).
  exists w1, w2, l. split; [exact Hclose|]. split; [exact Hopen|].
  split; [eauto|]. split; [congruence|]. split.
  - eexists (length (sockets w)), _. split; [split|].
    + congruence.
    + rewrite Hsock2, list_lookup_alter_eq, Hnew. reflexivity.
    + reflexivity.
  - intros key o c Hget Hoc. rewrite <- Hreg1 in Hget. rewrite <- Hobj1 in Hoc.
    now destruct (Hjoin Hws1 key o c Hget Hoc).
Qed.

Lemma reconnect_rejoins_witness :
  ∃ w1 w2 l,
    step (emit_close 0 1006 "gone") lobby_joined = Some (Normal tt, w1) ∧
    step (emit_open 1) w1 = Some (Normal tt, w2) ∧
    ws_send 1 (JoinChannelMessage "lobby" "42" EmptyString) ∈ l ∧
    ∃ l', log w2 = log w1 ++ l ++ l'.
Proof.
  destruct (reconnect_rejoins lobby_joined 0 (transport0 OPEN) 1006 "gone"
              lobby_joined_reachable (conj eq_refl eq_refl))
    as (w1 & w2 & l & Hclose & Hopen & Hlog & _ & _ & Hjoin).
  - simpl. discriminate.
  - lia.
  - exists w1, w2, l. split; [exact Hclose|]. split; [exact Hopen|].
    split; [|exact Hlog].
    apply (Hjoin (channelKey "lobby" "42") 0 lobby); reflexivity.
Defined.

(** X18. The [close] listener does not look at which transport closed.  If
    a transport other than the current one reports a close with a code
    strictly between 1000 and 2000 while the current transport is connecting
    or open, the listener clears the ping timer of the current transport,
    emits "reconnect" and then [connect()] throws "Socket is already open"
    out of the listener; no transport is created. *)
Theorem stale_close_throws (w : World) (i j : nat) (x y : WebSocket)
    (code : Z) (reason : string) :
  current_transport w j y →
  readyState y = CONNECTING ∨ readyState y = OPEN →
  i ≠ j → sockets w !! i = Some x → readyState x ≠ CLOSED →
  (1000 < code < 2000)%Z →
  ∃ w', step (emit_close i code reason) w =
          Some (Throw (JsError "Socket is already open"), w') ∧
    log w' = log w ++ [call_clearTimeout (_pingTimeout (this w));
                       socket_emit (ev_reconnect code reason)] ∧
    (∀ t, _pingTimeout (this w) = Some t → pending w' t = None) ∧
    _ws (this w') = Some j ∧
    length (sockets w') = length (sockets w).
Proof.
  intros [Hj Hy] Hlive Hne Hx Hrs Hc. unfold step, transport_emits. rewrite Hx.
  replace (negb (ReadyState_eqb (readyState x) CLOSED)) with true
    by (destruct (readyState x); simpl; congruence).
  destruct w as [[u ws pt chs] socks objs tms nw lg]. simpl in *. subst ws.
  rewrite (on_close_transient _ code reason Hc).
  match goal with |- context [Socket_connect ?w1] =>
    assert (Socket_connect w1 = (Throw (JsError "Socket is already open"), w1))
      as ->
  end.
  { run_m.
    destruct pt; simpl; rewrite list_lookup_alter_ne, Hy by exact Hne;
      destruct Hlive as [-> | ->]; reflexivity. }
  eexists. split; [reflexivity|].
  destruct pt as [t0|]; simpl; rewrite length_alter, <- app_assoc; simpl.
  - repeat split. intros t [= <-]. eapply pending_cleared. reflexivity.
  - repeat split. discriminate.
Qed.

Lemma stale_close_throws_witness :
  ∃ w', step (emit_close 0 1005 EmptyString) reconnected_by_hand =
          Some (Throw (JsError "Socket is already open"), w') ∧
        pending reconnected_by_hand 3 =
          Some {| callback := HeartbeatPing; delay := 10000; due := 10000 |} ∧
        pending w' 3 = None.
Proof.
  destruct (stale_close_throws reconnected_by_hand 0 1 (transport0 CLOSING)
              (transport0 OPEN) 1005 EmptyString)
    as (w' & Hstep & _ & Hclear & _).
  - split; reflexivity.
  - right. reflexivity.
  - discriminate.
  - reflexivity.
  - simpl. discriminate.
  - lia.
  - exists w'. split; [exact Hstep|]. split; [reflexivity|].
    apply Hclear. reflexivity.
Defined.

(** ** One live transport *)

Global Instance only_closes_preorder : PreOrder only_closes.
Proof.
  split.
  - intros w. split; [reflexivity|]. intros j x Hx. exists x. auto.
  - intros w1 w2 w3 [Hws H12] [Hws' H23]. split; [congruence|].
    intros j x3 Hx3. destruct (H23 j x3 Hx3) as (x2 & Hx2 & H2).
    destruct (H12 j x2 Hx2) as (x1 & Hx1 & H1). exists x1.
    split; [exact Hx1|]. destruct H2 as [-> | H2]; [exact H1 | auto].
Qed.

Lemma only_closes_same (w w' : World) :
  _ws (this w') = _ws (this w) → sockets w' = sockets w → only_closes w w'.
Proof.
  intros Hws Hs. split; [exact Hws|]. rewrite Hs. intros j x Hx. exists x. auto.
Qed.

Lemma only_closes_alter (f : WebSocket → WebSocket) (i : nat) (w : World) :
  (∀ x, readyState (f x) = readyState x ∨ readyState (f x) = CLOSING ∨
        readyState (f x) = CLOSED) →
  only_closes w (set_sockets (alter f i) w).
Proof.
  intros Hf. split; [reflexivity|]. intros j x' Hx'. simpl in Hx'.
  rewrite list_lookup_alter in Hx'. destruct (decide (i = j)) as [->|].
  - destruct (sockets w !! j) as [x|]; [|discriminate].
    injection Hx' as <-. exists x. split; [reflexivity | apply Hf].
  - exists x'. auto.
Qed.

Lemma closing_only_closes (x : WebSocket) :
  readyState (closing x) = readyState x ∨ readyState (closing x) = CLOSING ∨
  readyState (closing x) = CLOSED.
Proof. unfold closing. destruct (readyState x) eqn:E; simpl; auto. Qed.

Lemma one_live_only_closes (w w' : World) :
  one_live_transport w → only_closes w w' → one_live_transport w'.
Proof.
  intros Hw [Hws Hs] j x' Hx' Hne. rewrite Hws in Hne.
  destruct (Hs j x' Hx') as (x & Hx & [-> | H]); [now apply (Hw j) | tauto].
Qed.

Lemma join_only_closes (o : nat) : respects only_closes (Channel__join o).
Proof.
  intros w.
  destruct (Channel__join_cases w o) as [-> | (c & i & x & _ & _ & _ & ->)];
    [reflexivity | now apply only_closes_same].
Qed.

Ltac closes_step :=
  match goal with
  | |- PreOrder _ => apply _
  | |- respects _ (bind _ _) => apply respects_bind
  | |- respects _ (ret _) => apply respects_ret
  | |- respects _ (throw _) => apply respects_throw
  | |- respects _ (gets _) => apply respects_gets
  | |- respects _ (for_of _ _) => apply respects_for_of
  | |- respects _ this__ws => apply respects_this__ws
  | |- respects _ (deref _) => apply respects_deref
  | |- respects _ Socket_isOpen => apply respects_isOpen
  | |- respects _ (Channel__join _) => apply join_only_closes
  | |- respects _ (WebSocket_send _ _) =>
    intros ?; apply only_closes_same; reflexivity
  | |- respects _ (WebSocket_ping _) =>
    intros ?; apply only_closes_same; reflexivity
  | |- respects _ (setTimeout _ _) =>
    intros ?; apply only_closes_same; reflexivity
  | |- respects _ (WebSocket_terminate _ _) => unfold WebSocket_terminate
  | |- respects _ (WebSocket_close _ _) => unfold WebSocket_close
  | |- respects _ (WebSocket_shut _ _ _) => unfold WebSocket_shut
  | |- respects _ (modify _) => apply respects_modify; intros ?
  | |- respects _ (match ?x with _ => _ end) => destruct x
  | |- respects _ (if ?b then _ else _) => destruct b
  | |- ∀ _, _ => intros ?
  | |- only_closes _ (add_log _ (set_sockets (alter closing ?i) ?w)) =>
    transitivity (set_sockets (alter closing i) w);
    [apply only_closes_alter, closing_only_closes
    | apply only_closes_same; reflexivity]
  | |- only_closes _ (add_log _ match ?t with Some _ => _ | None => _ end) =>
    destruct t
  | |- only_closes _ _ => apply only_closes_same; reflexivity
  | |- respects only_closes (λ _, _) =>
    intros ?; apply only_closes_same; reflexivity
  end.

Lemma on_error_within_only_closes (d : nat) :
  respects only_closes (on_error_within d).
Proof.
  induction d as [|d IH]; rewrite on_error_within_eq; repeat closes_step.
  exact IH.
Qed.

Lemma callback_only_closes (cb : Callback) : respects only_closes (run_callback cb).
Proof.
  destruct cb; simpl; unfold assign__pingTimeout; repeat closes_step.
  apply on_error_within_only_closes.
Qed.

Lemma some_snd {A B : Type} (p : A * B) (r : A) (w' : B) :
  Some p = Some (r, w') → w' = snd p.
Proof. intros [= ->]. reflexivity. Qed.

Lemma connect_keeps_one_live (w : World) :
  one_live_transport w → one_live_transport (snd (Socket_connect w)).
Proof.
  intros Hw.
  assert (one_live_transport (connected w) ∨ True →
          (∀ i x, _ws (this w) = Some i → sockets w !! i = Some x →
                  readyState x = CLOSING ∨ readyState x = CLOSED) →
          one_live_transport (connected w)) as Hconn.
  { intros _ Hcur j x Hx Hne. simpl in *.
    apply lookup_snoc_Some in Hx as [[Hlt Hx] | [-> _]]; [|congruence].
    destruct (decide (_ws (this w) = Some j)) as [Hj|Hj]; [eauto | now apply (Hw j)]. }
  run_m. destruct (_ws (this w)) as [i|] eqn:Hi; simpl.
  - destruct (sockets w !! i) as [x|] eqn:Hx; simpl; [|exact Hw].
    destruct (readyState x) eqn:Hrs; simpl; try exact Hw.
    + apply Hconn; [now right|]. intros i' x' [= <-] Hx'. rewrite Hx in Hx'.
      injection Hx' as <-. auto.
    + apply Hconn; [now right|]. intros i' x' [= <-] Hx'. rewrite Hx in Hx'.
      injection Hx' as <-. auto.
  - apply Hconn; [now right|]. discriminate.
Qed.

Lemma step_keeps_one_live (e : Event) (w w' : World) (r : Completion unit) :
  one_live_transport w → step e w = Some (r, w') → one_live_transport w'.
Proof.
  intros Hw Hstep.
  assert (∀ (m : M unit) w0, one_live_transport w0 → respects only_closes m →
            one_live_transport (snd (m w0))) as Hrun.
  { intros m w0 Hw0 Hm. exact (one_live_only_closes w0 _ Hw0 (Hm w0)). }
  assert (∀ i allowed rs listener,
            transport_emits i allowed (Some rs) listener w = Some (r, w') →
            (rs = CLOSING ∨ rs = CLOSED) →
            (one_live_transport (set_sockets (alter (set_readyState rs) i) w) →
             one_live_transport
               (snd (listener (set_sockets (alter (set_readyState rs) i) w)))) →
            one_live_transport w') as Hemit.
  { intros i allowed rs listener H Hrs Hl. unfold transport_emits in H.
    destruct (sockets w !! i) as [x|]; [|discriminate].
    destruct (allowed (readyState x)); [|discriminate].
    apply some_snd in H. subst w'.
    apply Hl. apply (one_live_only_closes w); [exact Hw|].
    apply only_closes_alter. intros y. simpl. tauto. }
  destruct e; simpl in Hstep.
  - apply some_snd in Hstep. subst w'. now apply connect_keeps_one_live.
  - apply some_snd in Hstep. rewrite discard_snd in Hstep. subst w'.
    apply (one_live_only_closes w); [exact Hw|].
    generalize w. change (respects only_closes (Socket_channel channel0 param0 exclusiveKey0)).
    unfold Socket_channel. repeat closes_step.
  - apply some_snd in Hstep. subst w'. apply Hrun; [exact Hw|].
    unfold Socket_close. repeat closes_step.
    apply on_error_within_only_closes.
  - destruct (decide (o < length (objects w))); [|discriminate].
    apply some_snd in Hstep. subst w'. apply Hrun; [exact Hw|].
    unfold Channel_send, Socket__send. repeat closes_step.
  - destruct (decide (o < length (objects w))); [|discriminate].
    apply some_snd in Hstep. subst w'. apply Hrun; [exact Hw|].
    unfold Channel_quit, Socket__send. repeat closes_step.
  - (* open: the transport that opens is connecting, so it is the current one *)
    unfold transport_emits in Hstep.
    destruct (sockets w !! ws) as [x|] eqn:Hx; [|discriminate].
    destruct (ReadyState_eqb (readyState x) CONNECTING) eqn:Hrs; [|discriminate].
    apply ReadyState_eqb_eq in Hrs.
    apply some_snd in Hstep. subst w'. apply Hrun.
    + intros j y Hy Hne. simpl in *.
      destruct (decide (ws = j)) as [->|Hj].
      * destruct (Hw j x Hx Hne) as [H|H]; congruence.
      * rewrite list_lookup_alter_ne in Hy by exact Hj. now apply (Hw j).
    + unfold on_open, Socket_emit, Socket__heartbeat, assign__pingTimeout.
      repeat closes_step.
  - unfold transport_emits in Hstep.
    destruct (sockets w !! ws) as [x|]; [|discriminate].
    destruct (receiving (readyState x)); [|discriminate].
    apply some_snd in Hstep. subst w'. apply Hrun; [exact Hw|].
    unfold on_pong, clearTimeout, Socket__heartbeat, assign__pingTimeout.
    repeat closes_step.
  - unfold transport_emits in Hstep.
    destruct (sockets w !! ws) as [x|]; [|discriminate].
    destruct (receiving (readyState x)); [|discriminate].
    apply some_snd in Hstep. subst w'. apply Hrun; [exact Hw|].
    unfold on_message, JSON_parse, Channel__onMessage, Channel_emit, clearTimeout.
    repeat closes_step.
  - (* close *)
    eapply Hemit; [exact Hstep | now right |].
    intros Hw0.
    destruct (decide ((code ≤ 1000)%Z ∨ (2000 ≤ code)%Z)) as [Hc|Hc].
    + rewrite (on_close_terminal _ code reason Hc). simpl.
      apply (one_live_only_closes _ _ Hw0).
      unfold clearTimeout, modify. simpl.
      destruct (_pingTimeout _); now apply only_closes_same.
    + rewrite (on_close_transient _ code reason) by lia.
      apply connect_keeps_one_live. apply (one_live_only_closes _ _ Hw0).
      unfold clearTimeout, modify. simpl.
      destruct (_pingTimeout _); now apply only_closes_same.
  - (* error *)
    eapply Hemit; [exact Hstep | now left |].
    intros Hw0. apply Hrun; [exact Hw0|].
    apply on_error_within_only_closes.
  - destruct (pending w t) as [tm|]; [|discriminate].
    destruct (due tm <=? now w)%Z; [|discriminate].
    apply some_snd in Hstep. subst w'. apply Hrun; [|apply callback_only_closes].
    apply (one_live_only_closes w); [exact Hw|]. now apply only_closes_same.
  - destruct (0 <=? ms)%Z; [|discriminate].
    injection Hstep as _ <-. apply (one_live_only_closes w); [exact Hw|].
    now apply only_closes_same.
Qed.

(** X19. The Socket has at most one live transport: in every reachable
    store a transport that is connecting or open is the current one, and
    every transport that was replaced is closing or closed.  So an [open]
    event can only come from the current transport. *)
Theorem one_live_transport_at_a_time (w : World) (j : nat) (x : WebSocket) :
  reachable w → sockets w !! j = Some x →
  (readyState x = CONNECTING ∨ readyState x = OPEN → _ws (this w) = Some j) ∧
  (_ws (this w) ≠ Some j → readyState x = CLOSING ∨ readyState x = CLOSED).
Proof.
  intros Hw Hx.
  assert (one_live_transport w) as Hlive.
  { clear j x Hx. induction Hw as [address | w e r w' _ IH Hstep].
    - intros j x Hx Hne. simpl in *.
      apply list_lookup_singleton_Some in Hx as [-> _]. congruence.
    - eapply step_keeps_one_live; eassumption. }
  split; [|now apply Hlive].
  intros Hrs. destruct (decide (_ws (this w) = Some j)) as [H|H]; [exact H|].
  destruct (Hlive j x Hx H) as [H'|H']; destruct Hrs; congruence.
Qed.

Lemma one_live_transport_at_a_time_witness :
  readyState (transport0 CLOSING) = CLOSING ∨
  readyState (transport0 CLOSING) = CLOSED.
Proof.
  assert (reachable reconnected_by_hand) as Hreach.
  { apply (run_reachable [call_close; call_connect; emit_open 1] lobby_joined);
      [apply lobby_joined_reachable | vm_compute; reflexivity]. }
  assert (sockets reconnected_by_hand !! 0 = Some (transport0 CLOSING)) as Hx
    by (vm_compute; reflexivity).
  assert (_ws (this reconnected_by_hand) ≠ Some 0) as Hne
    by (vm_compute; discriminate).
  exact (proj2 (one_live_transport_at_a_time reconnected_by_hand 0
                  (transport0 CLOSING) Hreach Hx) Hne).
Defined.
